(** * yuque-dl: the knowledge-base downloader of [src/index.ts]

    A shallow embedding of [getKnowledgeBaseInfo], [downloadArticle] and
    [main], and the properties of the resumable tree synchronisation that
    the specification states about them.

    JavaScript strings are sequences of UTF-16 code units; they are
    modelled as [list N].  The [Map] keyed by uuid is a [gmap].  Promises
    are values of a small error monad; the effects of a run (directory
    creation, HTTP requests, file writes, progress updates, log lines) are
    recorded in an event trace, and the answers of the outside world come
    from an environment indexed by the number of events performed so far. *)

From Stdlib Require Import ZArith NArith List Ascii String Lia.
From stdpp Require Import gmap list fin_maps pretty.

Set Default Proof Using "Type".

(** ** JavaScript strings *)

Abbreviation jsstring := (list N).

(** The code units of an ASCII literal. *)
Definition js (s : string) : jsstring :=
  map (fun a => N.of_nat (nat_of_ascii a)) (list_ascii_of_string s).
Arguments js s%_string.

(** [s.startsWith(p)], used by the regular-expression matchers below for
    the literal parts of a pattern. *)
Fixpoint startsWith (p s : jsstring) : bool :=
  match p, s with
  | [], _ => true
  | _ :: _, [] => false
  | a :: p', b :: s' => if decide (a = b) then startsWith p' s' else false
  end.

(** [l.join(sep)] on an array of strings. *)
Fixpoint join (sep : jsstring) (l : list jsstring) : jsstring :=
  match l with
  | [] => []
  | x :: xs =>
      match xs with
      | [] => x
      | _ :: _ => x ++ sep ++ join sep xs
      end
  end.

(** [s.replace(/[class]/g, by)]: every code unit of the class is replaced. *)
Fixpoint replace_class_g (cls : N -> bool) (by_ : jsstring) (s : jsstring) : jsstring :=
  match s with
  | [] => []
  | c :: rest =>
      if cls c then by_ ++ replace_class_g cls by_ rest
      else c :: replace_class_g cls by_ rest
  end.

(** [s.replace(/[class]/, by)]: without the [g] flag only the first match
    is replaced. *)
Fixpoint replace_class_first (cls : N -> bool) (by_ : jsstring) (s : jsstring) : jsstring :=
  match s with
  | [] => []
  | c :: rest =>
      if cls c then by_ ++ rest
      else c :: replace_class_first cls by_ rest
  end.

(** The class of [dirNameReg]: backslash, slash, colon, asterisk, question
    mark, double quote, the two angle brackets, pipe, LF and CR. *)
Definition dirNameChars : list N :=
  [92; 47; 58; 42; 63; 34; 60; 62; 124; 10; 13]%N.

Definition dirNameReg (c : N) : bool := bool_decide (c ∈ dirNameChars).

(** ECMAScript line terminators: LF, CR, LS, PS. *)
Definition isLineTerminator (c : N) : bool :=
  bool_decide (c ∈ [10; 13; 8232; 8233]%N).

(** The class [\s]: WhiteSpace and LineTerminator of ECMAScript. *)
Definition isWhiteSpace (c : N) : bool :=
  bool_decide (c ∈ [9; 11; 12; 32; 160; 5760; 8239; 8287; 12288; 65279]%N)
  || (8192 <=? c)%N && (c <=? 8202)%N
  || isLineTerminator c.

Definition underscore : jsstring := [95%N].

(** [title.replace(dirNameReg, '_').replace(/\s/, '')], the expression of
    lines 161 and 188. *)
Definition sanitize (title : jsstring) : jsstring :=
  replace_class_first isWhiteSpace [] (replace_class_g dirNameReg underscore title).

(** The path sanitizer as the specification words it: every illegal
    character becomes an underscore, then at most the first whitespace
    character is removed. *)
Definition illegal_characters : list N :=
  js "\/:*?<>|" ++ [34; 10; 13]%N.

Definition sanitize_spec (title : jsstring) : jsstring :=
  let replaced :=
    (fun c => if bool_decide (c ∈ illegal_characters) then 95%N else c) <$> title in
  match list_find (fun c => isWhiteSpace c = true) replaced with
  | Some (i, _) => delete i replaced
  | None => replaced
  end.

(** [String(n)] for an integral number, and the decimal digits it has in a
    URL query (digits and the minus sign are not percent-encoded). *)
Definition String_number (n : Z) : jsstring := js (pretty n).

(** [mdData.replace(/<br(\s?)\/>/gm, '\n')]: the length of a match of the
    pattern at the head of [s], if there is one. *)
Definition br_match (s : jsstring) : option nat :=
  if startsWith (js "<br/>") s then Some 5
  else if startsWith (js "<br") s then
    match drop 3 s with
    | c :: rest => if isWhiteSpace c && startsWith (js "/>") rest then Some 6 else None
    | [] => None
    end
  else None.

(** The global replacement scans left to right; [skip] counts the code
    units of the current match that are still to be dropped. *)
Fixpoint replace_br (skip : nat) (s : jsstring) : jsstring :=
  match s with
  | [] => []
  | c :: rest =>
      match skip with
      | S k => replace_br k rest
      | O =>
          match br_match s with
          | Some n => 10%N :: replace_br (pred n) rest
          | None => c :: replace_br 0 rest
          end
      end
  end.

(** [knowledgeBaseReg]: the literal [decodeURIComponent(] and a double
    quote, a greedy [(.+)], then a double quote and [));]. *)
Definition knowledgeBaseReg_open : jsstring := js "decodeURIComponent(" ++ [34%N].
Definition knowledgeBaseReg_close : jsstring := [34%N] ++ js "));".

(** The greedy group [(.+)] followed by the closing literal: the longest
    non-empty run of code units other than line terminators after which
    the closing literal stands. *)
Fixpoint greedy_group (s : jsstring) : option jsstring :=
  match s with
  | [] => None
  | c :: rest =>
      if isLineTerminator c then None
      else
        match greedy_group rest with
        | Some g => Some (c :: g)
        | None => if startsWith knowledgeBaseReg_close rest then Some [c] else None
        end
  end.

(** [html.match(knowledgeBaseReg)]: group 1 of the leftmost match. *)
Fixpoint match_knowledgeBaseReg (html : jsstring) : option jsstring :=
  match html with
  | [] => None
  | _ :: rest =>
      match
        (if startsWith knowledgeBaseReg_open html
         then greedy_group (drop (length knowledgeBaseReg_open) html)
         else None)
      with
      | Some g => Some g
      | None => match_knowledgeBaseReg rest
      end
  end.

(** ** Settled promises

    [Resolved a] is a fulfilled promise (or a call that returned [a]);
    [Rejected message] is a promise rejected with an error carrying that
    message (or a call that threw it). *)
Inductive Settled (A : Type) : Type :=
| Resolved (a : A)
| Rejected (message : jsstring).
Arguments Resolved {A} a.
Arguments Rejected {A} message.

(** [p.then(f)]: a rejection passes the handler by. *)
Definition then_ {A B : Type} (p : Settled A) (f : A -> Settled B) : Settled B :=
  match p with
  | Resolved a => f a
  | Rejected message => Rejected message
  end.

(** [p.catch(g)]: the handler sees the message of the rejection. *)
Definition catch_ {A : Type} (p : Settled A) (g : jsstring -> Settled A) : Settled A :=
  match p with
  | Resolved a => Resolved a
  | Rejected message => g message
  end.

(** ** The data of [types/KnowledgeBaseResponse] and [types/ArticleResponse]

    Only the fields that [index.ts] reads are kept.  [type] is [None] when
    [typeof item.type] is not ['string']. *)
Module KnowledgeBase.

Record Toc : Type := {
  type : option jsstring;
  title : jsstring;
  uuid : jsstring;
  url : jsstring;
  parent_uuid : jsstring;
  child_uuid : jsstring;
}.

Record Book : Type := {
  id : option Z;
  slug : option jsstring;
  toc : option (list Toc);
  name : option jsstring;
  description : option jsstring;
}.

Record Response : Type := {
  book : option Book;
}.

End KnowledgeBase.

Module ArticleResponse.

Record Data : Type := {
  sourcecode : jsstring;
}.

(** [data] is [None] when [apiRes.data] is missing. *)
Record RootObject : Type := {
  data : option Data;
}.

End ArticleResponse.

(** [IKnowledgeBaseInfo]: every field is optional; [{}] has none. *)
Record IKnowledgeBaseInfo : Type := {
  bookId : option Z;
  bookSlug : option jsstring;
  tocList : option (list KnowledgeBase.Toc);
  bookName : option jsstring;
  bookDesc : option jsstring;
}.

Definition emptyInfo : IKnowledgeBaseInfo :=
  {| bookId := None; bookSlug := None; tocList := None;
     bookName := None; bookDesc := None |}.

Module Params.

(** [IDownloadArticleParams]. *)
Record IDownloadArticleParams : Type := {
  bookId : Z;
  itemUrl : jsstring;
  savePath : jsstring;
  saveFilePath : jsstring;
  uuid : jsstring;
  articleTitle : jsstring;
  articleUrl : jsstring;
}.

End Params.

(** [IProgressItem], with the shape of the object literals of lines 169
    and 191. *)
Record IProgressItem : Type := {
  path : jsstring;
  pathTitleList : list jsstring;
  pathIdList : list jsstring;
  toc : KnowledgeBase.Toc;
}.

(** [IOptions]: the destination directory is the only option read. *)
Record IOptions : Type := {
  distDir : jsstring;
}.

(** The fields of a [ProgressBar] object that [main] reads. *)
Record ProgressBar : Type := {
  bookPath : jsstring;
  total : nat;
  curr : nat;
  progressInfo : list IProgressItem;
  isDownloadInterrupted : bool;
}.

(** The methods of [ProgressBar] that [main] calls.  [init] reads the
    progress file of the book directory, whose records are its first
    argument. *)
Record ProgressBarMethods : Type := {
  init : list IProgressItem -> ProgressBar -> ProgressBar;
  updateProgress : IProgressItem -> bool -> ProgressBar -> ProgressBar;
}.

(** ** The outside world *)

(** What [axios.get] settles to: a response with its status and body, or
    a rejection (network error, or a status the client refuses). *)
Inductive AxiosResult (A : Type) : Type :=
| AxiosResponse (status : Z) (data : A)
| AxiosError (message : jsstring).
Arguments AxiosResponse {A} status data.
Arguments AxiosError {A} message.

(** The error [mdImg.run] rejects with: [error] is [Some m] when [e.error]
    is truthy, [m] being how [e.error?.message] prints; [url] is empty when
    [e.url] is falsy. *)
Record MdImgError : Type := {
  message : jsstring;
  error : option jsstring;
  url_ : jsstring;
}.

(** The log lines of [main], by the statement that prints them. *)
Inductive LogLine : Type :=
| LogDone                                   (* lines 130 and 242 *)
| LogFailCount (totalArticles failed : nat) (* line 224 *)
| LogFailed (path : jsstring)               (* line 226, logger.error *)
| LogRetry                                  (* line 228 *)
| LogSummary.                               (* line 239 *)

(** The effects of a run, in the order they are performed. *)
Inductive Event : Type :=
| axios_get (url : jsstring)
| mdImg_run (mdData dist imgDir : jsstring)
| fs_writeFile (file data : jsstring)
| fs_mkdir (dir : jsstring)
| progressBar_init
| progressBar_updateProgress (progressItem : IProgressItem) (isSuccess : bool)
| bar_interrupt (message : jsstring)
| completePromise_finally
| logger (line : LogLine)
| summary_genFile (bookPath : jsstring) (bookName bookDesc : option jsstring)
    (uuidMap : gmap jsstring IProgressItem).

(** The answers of the outside world.  The first argument of each answer
    is the number of events the run has performed before the call, so two
    calls with the same arguments may be answered differently.  [None] is
    success for the two file-system calls, [Some message] a rejection. *)
Record World : Type := {
  get_page : nat -> jsstring -> AxiosResult (option jsstring);
  get_doc : nat -> jsstring -> AxiosResult (option ArticleResponse.RootObject);
  run_mdImg : nat -> jsstring -> jsstring -> jsstring -> MdImgError + jsstring;
  writeFile : nat -> jsstring -> jsstring -> option jsstring;
  mkdir : nat -> jsstring -> option jsstring;
  progress_json : list IProgressItem;
}.

(** The built-ins whose result depends on the host: the locale's case
    mapping, URI decoding, JSON parsing, and the regular expression that
    line 145 builds from the book slug ([prefix_of url bookSlug] is the
    value of [url.replace(new RegExp(...), '$1')]). *)
Record Host : Type := {
  toLocaleLowerCase : jsstring -> jsstring;
  decodeURIComponent : jsstring -> Settled jsstring;
  JSON_parse : jsstring -> Settled KnowledgeBase.Response;
  prefix_of : jsstring -> option jsstring -> jsstring;
}.

(** ** [getKnowledgeBaseInfo] (lines 33-56)

    [JSON_parse] stands for [JSON.parse] followed by the reading of
    [jsonData.book]: it rejects when the text is not JSON and when the
    value has no properties to read ([null]). *)
Definition getKnowledgeBaseInfo (h : Host) (w : World) (now : nat) (url : jsstring)
  : list Event * Settled IKnowledgeBaseInfo :=
  let response :=
    match get_page w now url with
    | AxiosResponse status data => Resolved (status, default [] data)
    | AxiosError message => Rejected message
    end in
  let html :=
    then_ response (fun '(status, data) =>
      if decide (status = 200%Z) then Resolved data else Resolved []) in
  ([axios_get url],
   then_ html (fun html =>
     let data1 := default [] (match_knowledgeBaseReg html) in
     match data1 with
     | [] => Resolved emptyInfo
     | _ :: _ =>
         then_ (decodeURIComponent h data1) (fun decoded =>
         then_ (JSON_parse h decoded) (fun jsonData =>
           match KnowledgeBase.book jsonData with
           | None => Resolved emptyInfo
           | Some book =>
               Resolved
                 {| bookId := KnowledgeBase.id book;
                    bookSlug := KnowledgeBase.slug book;
                    tocList := Some (default [] (KnowledgeBase.toc book));
                    bookName := Some (default [] (KnowledgeBase.name book));
                    bookDesc := Some (default [] (KnowledgeBase.description book)) |}
           end))
     end)).

(** ** [downloadArticle] (lines 59-115) *)

Definition apiUrl_of (bookId : Z) (itemUrl : jsstring) : jsstring :=
  let apiUrl := js "https://www.yuque.com/api/docs/" ++ itemUrl in
  let query :=
    js "book_id=" ++ String_number bookId
    ++ js "&merge_dynamic_data=false" ++ js "&mode=markdown" in
  apiUrl ++ js "?" ++ query.

(** The first [await]: the request with its [then] and [catch] handlers.
    The [catch] handler also sees what the [then] handler throws. *)
Definition fetch_sourcecode (w : World) (now : nat) (apiUrl : jsstring) : Settled jsstring :=
  let request :=
    match get_doc w now apiUrl with
    | AxiosResponse status data => Resolved (status, data)
    | AxiosError message => Rejected message
    end in
  catch_
    (then_ request (fun '(status, apiRes) =>
       if decide (status = 200%Z) then
         match apiRes with
         | Some {| ArticleResponse.data := Some {| ArticleResponse.sourcecode := c :: s |} |} =>
             Resolved (c :: s)
         | _ => Rejected (js "download article Error: " ++ apiUrl)
         end
       else
         Rejected (js "download article Error: " ++ apiUrl ++ js " http status "
                   ++ String_number status)))
    (fun message => Rejected (js "download article Error: " ++ apiUrl ++ js " " ++ message)).

(** The message of the error thrown when [mdImg.run] rejects (lines 93-98). *)
Definition image_error_message (e : MdImgError) : jsstring :=
  match error e, url_ e with
  | Some error_message, _ :: _ =>
      js "download article image Error " ++ url_ e ++ js ": " ++ error_message
  | _, _ => js "download article image Error: " ++ message e
  end.

(** Lines 101-107: line breaks, the title header and the source footer. *)
Definition page_footer (articleUrl : jsstring) : jsstring :=
  js "<!--page footer-->" ++ [10; 45; 32; 21407; 25991]%N ++ js ": <" ++ articleUrl ++ js ">".

Definition final_text (mdData articleTitle articleUrl : jsstring) : jsstring :=
  let mdData := replace_br 0 mdData in
  let mdData :=
    match articleTitle with
    | [] => mdData
    | _ :: _ =>
        js "# " ++ articleTitle ++ [10%N] ++ js "<!--page header-->" ++ [10; 10]%N
        ++ mdData ++ [10; 10]%N
    end in
  match articleUrl with
  | [] => mdData
  | _ :: _ => mdData ++ page_footer articleUrl
  end.

Definition downloadArticle (w : World) (now : nat) (params : Params.IDownloadArticleParams)
  : list Event * Settled bool :=
  let apiUrl := apiUrl_of (Params.bookId params) (Params.itemUrl params) in
  let ev1 := [axios_get apiUrl] in
  match fetch_sourcecode w now apiUrl with
  | Rejected message => (ev1, Rejected message)
  | Resolved sourcecode =>
      let imgDir := js "img/" ++ Params.uuid params in
      let ev2 := ev1 ++ [mdImg_run sourcecode (Params.savePath params) imgDir] in
      match run_mdImg w (S now) sourcecode (Params.savePath params) imgDir with
      | inl e => (ev2, Rejected (image_error_message e))
      | inr mdData =>
          let mdData := final_text mdData (Params.articleTitle params) (Params.articleUrl params) in
          let ev3 := ev2 ++ [fs_writeFile (Params.saveFilePath params) mdData] in
          match writeFile w (S (S now)) (Params.saveFilePath params) mdData with
          | None => (ev3, Resolved true)
          | Some message =>
              (ev3, Rejected (js "download article Error " ++ Params.articleUrl params
                              ++ js ": " ++ message))
          end
      end
  end.

(** ** [main] (lines 117-246) *)

(** How a call ends: it returns, it throws (a rejected [await] that nothing
    catches), or it never returns.  The last two keep the events performed
    until then. *)
Inductive Outcome (A : Type) : Type :=
| Normal (a : A)
| Thrown (message : jsstring) (events : list Event)
| Hung (events : list Event).
Arguments Normal {A} a.
Arguments Thrown {A} message events.
Arguments Hung {A} events.

(** The variables of [main] that the loop reads and writes. *)
Record LoopState : Type := {
  uuidMap : gmap jsstring IProgressItem;
  progressBar : ProgressBar;
  errArticleCount : nat;
  totalArticleCount : nat;
  errArticleInfo : list IProgressItem;
  trace : list Event;
}.

(** What a call of [main] that returns has done: the early return of line
    131, or the whole pass. *)
Inductive Run : Type :=
| AlreadyComplete (events : list Event)
| Ran (st : LoopState).

(** The [while (tempItem)] loop of lines 160-168.  [unshift] puts the new
    title and id in front.  The loop has no bound of its own; [fuel] is
    the number of iterations allowed, [None] is running out of them. *)
Fixpoint ancestorWalk (fuel : nat) (uuidMap : gmap jsstring IProgressItem)
    (tempItem : KnowledgeBase.Toc) (pathTitleList pathIdList : list jsstring)
  : option (list jsstring * list jsstring) :=
  match fuel with
  | O => None
  | S fuel' =>
      let pathTitleList := sanitize (KnowledgeBase.title tempItem) :: pathTitleList in
      let pathIdList := KnowledgeBase.uuid tempItem :: pathIdList in
      match uuidMap !! KnowledgeBase.parent_uuid tempItem with
      | Some parent => ancestorWalk fuel' uuidMap (toc parent) pathTitleList pathIdList
      | None => Some (pathTitleList, pathIdList)
      end
  end.

(** The [progressItem] of a directory (lines 157-174).  A walk that ends
    visits every key of the map at most once, so one more iteration than
    the map has keys is enough ([ancestorWalk_enough]); [None] is a walk
    that never ends. *)
Definition dirItem (uuidMap : gmap jsstring IProgressItem) (item : KnowledgeBase.Toc)
  : option IProgressItem :=
  match ancestorWalk (S (size uuidMap)) uuidMap item [] [] with
  | Some (pathTitleList, pathIdList) =>
      Some {| path := join (js "/") pathTitleList;
              pathTitleList := pathTitleList;
              pathIdList := pathIdList;
              toc := item |}
  | None => None
  end.

(** [preItem] of lines 180-187: path, titles and ids of the parent's
    entry, or the empty default. *)
Definition preItem (uuidMap : gmap jsstring IProgressItem) (item : KnowledgeBase.Toc)
  : jsstring * list jsstring * list jsstring :=
  match uuidMap !! KnowledgeBase.parent_uuid item with
  | Some parent => (path parent, pathTitleList parent, pathIdList parent)
  | None => ([], [], [])
  end.

(** The [progressItem] of an article (lines 188-196). *)
Definition leafItem (uuidMap : gmap jsstring IProgressItem) (item : KnowledgeBase.Toc)
  : IProgressItem :=
  let '(_, preTitles, preIds) := preItem uuidMap item in
  let fileName := sanitize (KnowledgeBase.title item) in
  let pathTitleList := preTitles ++ [fileName ++ js ".md"] in
  {| path := join (js "/") pathTitleList;
     pathTitleList := pathTitleList;
     pathIdList := preIds ++ [KnowledgeBase.uuid item];
     toc := item |}.

(** [uuidMap] seeded from the progress records (lines 134-143). *)
Definition seed (progressInfo : list IProgressItem) : gmap jsstring IProgressItem :=
  foldl (fun m item => <[KnowledgeBase.uuid (toc item) := item]> m) ∅ progressInfo.

Section Main.

Context (h : Host) (pbm : ProgressBarMethods) (w : World).

(** The test of line 156 on a node whose [type] is the string [type_]. *)
Definition isDirectory (type_ : jsstring) (item : KnowledgeBase.Toc) : bool :=
  bool_decide (toLocaleLowerCase h type_ = js "title")
  || negb (bool_decide (KnowledgeBase.child_uuid item = [])).

(** Lines 157-177. *)
Definition directory (bookPath : jsstring) (item : KnowledgeBase.Toc) (st : LoopState)
  : Outcome LoopState :=
  match dirItem (uuidMap st) item with
  | None => Hung (trace st)
  | Some progressItem =>
      let dir := bookPath ++ js "/" ++ join (js "/") (pathTitleList progressItem) in
      let events := trace st ++ [fs_mkdir dir] in
      match mkdir w (length (trace st)) dir with
      | Some message => Thrown message events
      | None =>
          Normal
            {| uuidMap := <[KnowledgeBase.uuid item := progressItem]> (uuidMap st);
               progressBar := updateProgress pbm progressItem true (progressBar st);
               errArticleCount := errArticleCount st;
               totalArticleCount := totalArticleCount st;
               errArticleInfo := errArticleInfo st;
               trace := events ++ [progressBar_updateProgress progressItem true] |}
      end
  end.

(** The argument of [downloadArticle] at lines 199-207. *)
Definition articleParams (bookId : Z) (bookPath articleUrlPrefix : jsstring)
    (uuidMap : gmap jsstring IProgressItem) (item : KnowledgeBase.Toc)
  : Params.IDownloadArticleParams :=
  let '(prePath, _, _) := preItem uuidMap item in
  let progressItem := leafItem uuidMap item in
  {| Params.bookId := bookId;
     Params.itemUrl := KnowledgeBase.url item;
     Params.savePath := bookPath ++ js "/" ++ prePath;
     Params.saveFilePath := bookPath ++ js "/" ++ path progressItem;
     Params.uuid := KnowledgeBase.uuid item;
     Params.articleUrl := articleUrlPrefix ++ js "/" ++ KnowledgeBase.url item;
     Params.articleTitle := KnowledgeBase.title item |}.

(** Lines 179-215. *)
Definition article (bookId : Z) (bookPath articleUrlPrefix : jsstring)
    (item : KnowledgeBase.Toc) (st : LoopState) : LoopState :=
  let progressItem := leafItem (uuidMap st) item in
  let '(events, result) :=
    downloadArticle w (length (trace st))
      (articleParams bookId bookPath articleUrlPrefix (uuidMap st) item) in
  match result with
  | Resolved _ =>
      {| uuidMap := <[KnowledgeBase.uuid item := progressItem]> (uuidMap st);
         progressBar := updateProgress pbm progressItem true (progressBar st);
         errArticleCount := errArticleCount st;
         totalArticleCount := S (totalArticleCount st);
         errArticleInfo := errArticleInfo st;
         trace := trace st ++ events ++ [progressBar_updateProgress progressItem true] |}
  | Rejected message =>
      {| uuidMap := <[KnowledgeBase.uuid item := progressItem]> (uuidMap st);
         progressBar := updateProgress pbm progressItem false (progressBar st);
         errArticleCount := S (errArticleCount st);
         totalArticleCount := S (totalArticleCount st);
         errArticleInfo := errArticleInfo st ++ [progressItem];
         trace := trace st ++ events
                  ++ [bar_interrupt ([10005; 32]%N ++ message);
                      progressBar_updateProgress progressItem false] |}
  end.

(** The body of the [for] loop (lines 150-216). *)
Definition loopBody (bookId : Z) (bookPath articleUrlPrefix : jsstring)
    (item : KnowledgeBase.Toc) (st : LoopState) : Outcome LoopState :=
  match KnowledgeBase.type item with
  | None => Normal st
  | Some type_ =>
      match uuidMap st !! KnowledgeBase.uuid item with
      | Some _ => Normal st
      | None =>
          if isDirectory type_ item then directory bookPath item st
          else
            match KnowledgeBase.url item with
            | [] => Normal st
            | _ :: _ => Normal (article bookId bookPath articleUrlPrefix item st)
            end
      end
  end.

(** The [for] loop over the nodes that are left. *)
Fixpoint loop (bookId : Z) (bookPath articleUrlPrefix : jsstring)
    (items : list KnowledgeBase.Toc) (st : LoopState) : Outcome LoopState :=
  match items with
  | [] => Normal st
  | item :: rest =>
      match loopBody bookId bookPath articleUrlPrefix item st with
      | Normal st' => loop bookId bookPath articleUrlPrefix rest st'
      | Thrown message events => Thrown message events
      | Hung events => Hung events
      end
  end.

(** Lines 219-244: the failure report, the summary and the last line. *)
Definition epilogue (bookPath : jsstring) (total : nat)
    (bookName bookDesc : option jsstring) (st : LoopState) : list Event :=
  [completePromise_finally]
  ++ (if decide (0 < errArticleCount st) then
        [logger (LogFailCount (totalArticleCount st) (errArticleCount st))]
        ++ map (fun item => logger (LogFailed (path item))) (errArticleInfo st)
        ++ [logger LogRetry]
      else [])
  ++ [summary_genFile bookPath bookName bookDesc (uuidMap st); logger LogSummary]
  ++ (if decide (curr (progressBar st) = total) then [logger LogDone] else []).

Definition set_trace (st : LoopState) (events : list Event) : LoopState :=
  {| uuidMap := uuidMap st; progressBar := progressBar st;
     errArticleCount := errArticleCount st; totalArticleCount := totalArticleCount st;
     errArticleInfo := errArticleInfo st; trace := events |}.

(** Lines 122-244, once the book id and the node list are known.  The
    object that [new ProgressBar(bookPath, total)] makes has the two
    arguments of the constructor and nothing loaded yet. *)
Definition download (url : jsstring) (options : IOptions) (info : IKnowledgeBaseInfo)
    (bookId : Z) (tocList : list KnowledgeBase.Toc) (events : list Event) : Outcome Run :=
  let bookPath := distDir options ++ js "/" ++ String_number bookId in
  let now := length events in
  let events := events ++ [fs_mkdir bookPath] in
  match mkdir w now bookPath with
  | Some message => Thrown message events
  | None =>
      let total := length tocList in
      let progressBar :=
        init pbm (progress_json w)
          {| bookPath := bookPath; total := total; curr := 0;
             progressInfo := []; isDownloadInterrupted := false |} in
      let events := events ++ [progressBar_init] in
      if decide (curr progressBar = total) then
        Normal (AlreadyComplete (events ++ [logger LogDone]))
      else
        let uuidMap :=
          if isDownloadInterrupted progressBar then seed (progressInfo progressBar) else ∅ in
        let articleUrlPrefix := prefix_of h url (bookSlug info) in
        match
          loop bookId bookPath articleUrlPrefix tocList
            {| uuidMap := uuidMap; progressBar := progressBar;
               errArticleCount := 0; totalArticleCount := 0;
               errArticleInfo := []; trace := events |}
        with
        | Normal st =>
            Normal (Ran (set_trace st
              (trace st ++ epilogue bookPath total (bookName info) (bookDesc info) st)))
        | Thrown message events => Thrown message events
        | Hung events => Hung events
        end
  end.

Definition main (url : jsstring) (options : IOptions) : Outcome Run :=
  let '(events, info) := getKnowledgeBaseInfo h w 0 url in
  match info with
  | Rejected message => Thrown message events
  | Resolved info =>
      match bookId info with
      | None | Some 0%Z => Thrown (js "No found book id") events
      | Some bookId =>
          match tocList info with
          | None | Some [] => Thrown (js "No found toc list") events
          | Some tocList => download url options info bookId tocList events
          end
      end
  end.

End Main.

(** ** The progress store *)

(** Modelled from the spec: the methods of [ProgressBar], whose file is not
    among the sources.  The store holds the records of the nodes that
    succeeded, [curr] is their number (the completed count), a run is
    interrupted when [0 < len(records) < total] at load time, and a failed
    node is left unrecorded. *)
Definition spec_init (records : list IProgressItem) (pb : ProgressBar) : ProgressBar :=
  {| bookPath := bookPath pb;
     total := total pb;
     curr := length records;
     progressInfo := records;
     isDownloadInterrupted :=
       bool_decide (0 < length records) && bool_decide (length records < total pb) |}.

Definition spec_updateProgress (progressItem : IProgressItem) (isSuccess : bool)
    (pb : ProgressBar) : ProgressBar :=
  if isSuccess then
    {| bookPath := bookPath pb;
       total := total pb;
       curr := S (curr pb);
       progressInfo := progressInfo pb ++ [progressItem];
       isDownloadInterrupted := isDownloadInterrupted pb |}
  else pb.

Definition specProgressBar : ProgressBarMethods :=
  {| init := spec_init; updateProgress := spec_updateProgress |}.

(** ** Fixtures for the examples

    A host whose case mapping is the ASCII one and whose decoder and
    parser answer with a given book, and a world that serves one page
    embedding a data block, answers every article request with a document,
    and fails exactly the calls it is told to fail. *)
Definition asciiLower (s : jsstring) : jsstring :=
  (fun c => if (65 <=? c)%N && (c <=? 90)%N then (c + 32)%N else c) <$> s.

Definition demoHost (book : option KnowledgeBase.Book) : Host :=
  {| toLocaleLowerCase := asciiLower;
     decodeURIComponent := Resolved;
     JSON_parse := fun _ => Resolved {| KnowledgeBase.book := book |};
     prefix_of := fun url _ => url |}.

Definition demoPage : jsstring :=
  js "<script>window.appData = JSON.parse(decodeURIComponent(" ++ [34%N]
  ++ js "%7B%22book%22%3A%7B%7D%7D" ++ [34%N] ++ js "));</script>".

Definition demoWorld (failing_docs failing_dirs : list jsstring)
    (records : list IProgressItem) : World :=
  {| get_page := fun _ _ => AxiosResponse 200 (Some demoPage);
     get_doc := fun _ apiUrl =>
       if bool_decide (apiUrl ∈ failing_docs) then AxiosError (js "timeout")
       else AxiosResponse 200
              (Some {| ArticleResponse.data :=
                         Some {| ArticleResponse.sourcecode := js "text" |} |});
     run_mdImg := fun _ mdData _ _ => inr mdData;
     writeFile := fun _ _ _ => None;
     mkdir := fun _ dir =>
       if bool_decide (dir ∈ failing_dirs) then Some (js "EACCES") else None;
     progress_json := records |}.

Definition mkToc (type_ title_ uuid_ url_ parent_ child_ : string) : KnowledgeBase.Toc :=
  {| KnowledgeBase.type := Some (js type_);
     KnowledgeBase.title := js title_;
     KnowledgeBase.uuid := js uuid_;
     KnowledgeBase.url := js url_;
     KnowledgeBase.parent_uuid := js parent_;
     KnowledgeBase.child_uuid := js child_ |}.

Definition mkBook (toc_ : list KnowledgeBase.Toc) : KnowledgeBase.Book :=
  {| KnowledgeBase.id := Some 7%Z;
     KnowledgeBase.slug := Some (js "kb");
     KnowledgeBase.toc := Some toc_;
     KnowledgeBase.name := Some (js "Book");
     KnowledgeBase.description := None |}.

(** The scenario of the specification: a directory [Intro] and an article
    [Hello] under it. *)
Definition nodeA : KnowledgeBase.Toc := mkToc "TITLE" "Intro" "A" "" "" "".
Definition nodeB : KnowledgeBase.Toc := mkToc "DOC" "Hello" "B" "x1" "A" "".

(** The state of the scenario after the iteration on [A]. *)
Definition entryA : IProgressItem :=
  {| path := js "Intro"; pathTitleList := [js "Intro"]; pathIdList := [js "A"]; toc := nodeA |}.

Definition afterA : LoopState :=
  {| uuidMap := {[ js "A" := entryA ]};
     progressBar := {| bookPath := js "out/7"; total := 2; curr := 1;
                       progressInfo := [entryA]; isDownloadInterrupted := false |};
     errArticleCount := 0; totalArticleCount := 0; errArticleInfo := [];
     trace := [fs_mkdir (js "out/7/Intro"); progressBar_updateProgress entryA true] |}.

Definition demoOptions : IOptions := {| distDir := js "out" |}.
Definition demoUrl : jsstring := js "https://www.yuque.com/u/kb".

(** ** Ancestor chains

    [ancestors m x chain]: [chain] lists, root first, the nodes met by
    looking up [parent_uuid] in [m] again and again from [x] until a
    parent is not found; it ends with [x] itself. *)
Inductive ancestors (m : gmap jsstring IProgressItem)
  : KnowledgeBase.Toc -> list KnowledgeBase.Toc -> Prop :=
| ancestors_root x :
    m !! KnowledgeBase.parent_uuid x = None ->
    ancestors m x [x]
| ancestors_parent x p chain :
    m !! KnowledgeBase.parent_uuid x = Some p ->
    ancestors m (toc p) chain ->
    ancestors m x (chain ++ [x]).

(** [depth m k n]: [n] lookups succeed from the key [k] on, and the next
    one fails. *)
Inductive depth (m : gmap jsstring IProgressItem) : jsstring -> nat -> Prop :=
| depth_O k :
    m !! k = None ->
    depth m k 0
| depth_S k p n :
    m !! k = Some p ->
    depth m (KnowledgeBase.parent_uuid (toc p)) n ->
    depth m k (S n).

(** An entry is consistent when its path is the join of its titles, of
    which there is at least one.  Both object literals of [main] build
    such entries. *)
Definition consistent (e : IProgressItem) : Prop :=
  path e = join (js "/") (pathTitleList e) /\ pathTitleList e <> [].

(** ** The classification of the specification

    Directory-like when the kind is the directory marker or the node has a
    child reference, leaf when it has a target reference, ignored
    otherwise. *)
Inductive Kind : Type := DirectoryLike | Leaf | Ignored.

Definition classify_spec (h : Host) (item : KnowledgeBase.Toc) : Kind :=
  let marker :=
    match KnowledgeBase.type item with
    | Some type_ => bool_decide (toLocaleLowerCase h type_ = js "title")
    | None => false
    end in
  if marker || negb (bool_decide (KnowledgeBase.child_uuid item = [])) then DirectoryLike
  else if negb (bool_decide (KnowledgeBase.url item = [])) then Leaf
  else Ignored.

(** [s.includes(p)]. *)
Fixpoint includes (p s : jsstring) : bool :=
  startsWith p s
  || match s with
     | [] => false
     | _ :: rest => includes p rest
     end.

(** The state in which the loop starts when there is no prior progress. *)
Definition freshState (pb : ProgressBar) (events : list Event) : LoopState :=
  {| uuidMap := ∅; progressBar := pb; errArticleCount := 0; totalArticleCount := 0;
     errArticleInfo := []; trace := events |}.

(** What the loop does with a node, by the classification of the
    specification: the node is handled as a directory, as an article, or
    left alone. *)
Definition handled (h : Host) (pbm : ProgressBarMethods) (w : World)
    (bookId : Z) (bookPath articleUrlPrefix : jsstring)
    (item : KnowledgeBase.Toc) (st : LoopState) : Outcome LoopState :=
  match classify_spec h item with
  | DirectoryLike => directory pbm w bookPath item st
  | Leaf => Normal (article pbm w bookId bookPath articleUrlPrefix item st)
  | Ignored => Normal st
  end.

(** Variations of a world: another answer to the page request, and an
    image step that always fails with a given error. *)
Definition withPage (page : AxiosResult (option jsstring)) (w : World) : World :=
  {| get_page := fun _ _ => page;
     get_doc := get_doc w; run_mdImg := run_mdImg w; writeFile := writeFile w;
     mkdir := mkdir w; progress_json := progress_json w |}.

Definition withImageError (e : MdImgError) (w : World) : World :=
  {| get_page := get_page w;
     get_doc := get_doc w; run_mdImg := fun _ _ _ _ => inl e; writeFile := writeFile w;
     mkdir := mkdir w; progress_json := progress_json w |}.

Definition demoParams : Params.IDownloadArticleParams :=
  {| Params.bookId := 7;
     Params.itemUrl := js "x1";
     Params.savePath := js "out/7/Intro";
     Params.saveFilePath := js "out/7/Intro/Hello.md";
     Params.uuid := js "B";
     Params.articleTitle := js "Hello";
     Params.articleUrl := js "https://www.yuque.com/u/kb/x1" |}.

(** ** The resolution map on its own

    What one iteration of the loop does to [uuidMap], whatever the world
    answers: the map does not depend on the outcome of a download.  [None]
    is an ancestor walk that does not end. *)
Definition resolveStep (h : Host) (m : gmap jsstring IProgressItem)
    (item : KnowledgeBase.Toc) : option (gmap jsstring IProgressItem) :=
  match KnowledgeBase.type item with
  | None => Some m
  | Some type_ =>
      match m !! KnowledgeBase.uuid item with
      | Some _ => Some m
      | None =>
          if isDirectory h type_ item then
            match dirItem m item with
            | Some e => Some (<[KnowledgeBase.uuid item := e]> m)
            | None => None
            end
          else
            match KnowledgeBase.url item with
            | [] => Some m
            | _ :: _ => Some (<[KnowledgeBase.uuid item := leafItem m item]> m)
            end
      end
  end.

Fixpoint resolve (h : Host) (m : gmap jsstring IProgressItem)
    (items : list KnowledgeBase.Toc) : option (gmap jsstring IProgressItem) :=
  match items with
  | [] => Some m
  | item :: rest =>
      match resolveStep h m item with
      | Some m' => resolve h m' rest
      | None => None
      end
  end.

(** The order of the node list: the parent of a node, when it is a node
    of the list, stands before the node, and nowhere else. *)
Definition ordered (nodes : list KnowledgeBase.Toc) : Prop :=
  forall i j x y,
    nodes !! i = Some x -> nodes !! j = Some y ->
    KnowledgeBase.uuid y = KnowledgeBase.parent_uuid x -> j < i.

(** The entries of [m] are entries of nodes of the list, under their own
    uuid. *)
Definition entries_of (nodes : list KnowledgeBase.Toc)
    (m : gmap jsstring IProgressItem) : Prop :=
  forall k e, m !! k = Some e -> toc e ∈ nodes /\ KnowledgeBase.uuid (toc e) = k.

(** The records of the progress bar are entries of the map. *)
Definition recorded (st : LoopState) : Prop :=
  forall e, e ∈ progressInfo (progressBar st) ->
    uuidMap st !! KnowledgeBase.uuid (toc e) = Some e.

(** A node is classified when the loop handles it as a directory or as an
    article. *)
Definition classified (h : Host) (x : KnowledgeBase.Toc) : Prop :=
  exists type_, KnowledgeBase.type x = Some type_
    /\ (isDirectory h type_ x = true \/ KnowledgeBase.url x <> []).

(** The page has a data block: the opening literal of [knowledgeBaseReg],
    a non-empty run without line terminators, the closing literal. *)
Definition has_block (html : jsstring) : Prop :=
  exists pre g post,
    html = pre ++ knowledgeBaseReg_open ++ g ++ knowledgeBaseReg_close ++ post
    /\ g <> [] /\ Forall (fun c => isLineTerminator c = false) g.

(** The iteration on [x] reaches the call of [downloadArticle] (line 199)
    when the map is [m]. *)
Definition downloads (h : Host) (m : gmap jsstring IProgressItem)
    (x : KnowledgeBase.Toc) : Prop :=
  exists type_,
    KnowledgeBase.type x = Some type_
    /\ m !! KnowledgeBase.uuid x = None
    /\ isDirectory h type_ x = false
    /\ KnowledgeBase.url x <> [].

(** ** Notions used by the further properties *)

(** The state in which the scenario starts, a second article [Hello]
    under [A], a directory that names itself as its parent, and a
    directory under it. *)
Definition demoStart : LoopState :=
  freshState (spec_init [] {| bookPath := js "out/7"; total := 2; curr := 0;
                              progressInfo := []; isDownloadInterrupted := false |}) [].

Definition nodeB2 : KnowledgeBase.Toc := mkToc "DOC" "Hello" "B2" "x2" "A" "".
Definition nodeL : KnowledgeBase.Toc := mkToc "TITLE" "Loop" "L" "" "L" "".
Definition nodeC : KnowledgeBase.Toc := mkToc "TITLE" "Child" "C" "" "L" "".

(** A blank: a whitespace code unit that the first replacement of
    [sanitize] leaves alone (every whitespace but LF and CR). *)
Definition blank (c : N) : bool := isWhiteSpace c && negb (dirNameReg c).

(** A segment without a slash, and an entry all of whose title segments
    are such. *)
Definition slashless (s : jsstring) : Prop := 47%N ∉ s.

Definition clean (e : IProgressItem) : Prop := Forall slashless (pathTitleList e).

(** The title and id segments of an entry go in pairs, and the last id is
    the uuid of the entry's own node. *)
Definition shaped (e : IProgressItem) : Prop :=
  length (pathTitleList e) = length (pathIdList e)
  /\ last (pathIdList e) = Some (KnowledgeBase.uuid (toc e)).

(** Events by kind. *)
Definition is_axios_get (ev : Event) : bool :=
  match ev with axios_get _ => true | _ => false end.

Definition is_bar_interrupt (ev : Event) : bool :=
  match ev with bar_interrupt _ => true | _ => false end.

Definition is_fs_writeFile (ev : Event) : bool :=
  match ev with fs_writeFile _ _ => true | _ => false end.

(** The number of events of a kind in a trace. *)
Definition count (kind : Event -> bool) (events : list Event) : nat :=
  length (List.filter kind events).

Definition is_failed_line (ev : Event) : bool :=
  match ev with logger (LogFailed _) => true | _ => false end.

Definition is_summary (ev : Event) : bool :=
  match ev with summary_genFile _ _ _ _ => true | _ => false end.

(** The directory of every directory entry of the map has been made by an
    [fs.mkdir] of the run. *)
Definition made (h : Host) (bookPath : jsstring) (st : LoopState) : Prop :=
  forall k e type_,
    uuidMap st !! k = Some e ->
    KnowledgeBase.type (toc e) = Some type_ ->
    isDirectory h type_ (toc e) = true ->
    fs_mkdir (bookPath ++ js "/" ++ path e) ∈ trace st.

(** What the counters of a state say about its trace, relative to the
    state [st0] in which the pass started. *)
Definition counted (st0 st : LoopState) : Prop :=
  count is_axios_get (trace st) + totalArticleCount st0
    = count is_axios_get (trace st0) + totalArticleCount st
  /\ count is_bar_interrupt (trace st) + errArticleCount st0
     = count is_bar_interrupt (trace st0) + errArticleCount st
  /\ length (errArticleInfo st) + errArticleCount st0
     = length (errArticleInfo st0) + errArticleCount st
  /\ errArticleCount st + totalArticleCount st0 <= errArticleCount st0 + totalArticleCount st
  /\ count is_failed_line (trace st) = count is_failed_line (trace st0)
  /\ count is_summary (trace st) = count is_summary (trace st0).

(** The regular expression [knowledgeBaseReg] matches at the head of [s]
    with group [g]. *)
Definition block_at (s g : jsstring) : Prop :=
  g <> [] /\ Forall (fun c => isLineTerminator c = false) g
  /\ exists post, s = knowledgeBaseReg_open ++ g ++ knowledgeBaseReg_close ++ post.

(** Case analysis on an iteration of the loop that returns: the node is
    entered as a directory, or as an article whose download succeeded, or
    as an article whose download failed.  The iterations that leave the
    state alone are closed by [done]. *)
Ltac loopBody_cases x st :=
  unfold loopBody;
  destruct (KnowledgeBase.type x) as [type_|]; [|by intros [= <-]];
  destruct (uuidMap st !! KnowledgeBase.uuid x) eqn:Hx; [by intros [= <-]|];
  destruct (isDirectory _ type_ x);
  [ unfold directory;
    destruct (dirItem (uuidMap st) x) as [e|] eqn:He; [|done];
    destruct (mkdir _ _ _); [done|]; intros [= <-]
  | destruct (KnowledgeBase.url x) eqn:Hurl; intros [= <-]; [done|];
    unfold article; destruct (downloadArticle _ _ _) as [events [b|message]] ].

(** * Properties *)

Lemma replace_class_g_single cls u s :
  replace_class_g cls [u] s = (fun c => if cls c then u else c) <$> s.
Proof.
  induction s as [|c s IH]; simpl; [done|].
  destruct (cls c); simpl; by rewrite IH.
Qed.

Example sanitize_demo : sanitize (js " a/b c") = js "a_b c".
Proof. reflexivity. Qed.

Example replace_br_demo :
  replace_br 0 (js "a<br/>b<br />c<br  />") = js "a" ++ [10%N] ++ js "b" ++ [10%N] ++ js "c<br  />".
Proof. reflexivity. Qed.

Example match_demo :
  match_knowledgeBaseReg (js "x = JSON.parse(decodeURIComponent(" ++ [34%N] ++ js "%7B%7D" ++ [34%N] ++ js "));")
  = Some (js "%7B%7D").
Proof. reflexivity. Qed.

Example String_number_demo : String_number (-42) = js "-42" /\ String_number 0 = js "0".
Proof. split; reflexivity. Qed.

Lemma replace_class_first_find cls s :
  replace_class_first cls [] s =
  match list_find (fun c => cls c = true) s with
  | Some (i, _) => delete i s
  | None => s
  end.
Proof.
  induction s as [|c s IH]; [done|].
  cbn [replace_class_first list_find]. rewrite IH.
  case_decide as Hc.
  - rewrite Hc. done.
  - apply not_true_is_false in Hc. rewrite Hc.
    destruct (list_find _ s) as [[i x]|]; done.
Qed.

Lemma replace_class_first_subseteq cls s :
  replace_class_first cls [] s ⊆ s.
Proof.
  induction s as [|c s IH]; simpl; [done|].
  destruct (cls c).
  - intros x Hx. by right.
  - intros x [->|Hx]%elem_of_cons; [left|right; auto].
Qed.

Lemma dirNameReg_illegal c : dirNameReg c = bool_decide (c ∈ illegal_characters).
Proof.
  unfold dirNameReg. apply bool_decide_ext.
  unfold dirNameChars, illegal_characters. cbn.
  rewrite !elem_of_cons, !elem_of_nil. tauto.
Qed.

(** C6.  [sanitize], the expression of lines 161 and 188, is the
    sanitizer of the specification: every one of the eleven characters
    becomes an underscore, then at most the first whitespace character is
    removed; none of the eleven characters is left in the result. *)
Theorem sanitize_refines_spec (title : jsstring) :
  sanitize title = sanitize_spec title
  ∧ ∀ c, c ∈ illegal_characters → c ∉ sanitize title.
Proof.
  unfold sanitize, sanitize_spec, underscore.
  rewrite replace_class_g_single, replace_class_first_find.
  rewrite (list_fmap_ext _ (fun c => if bool_decide (c ∈ illegal_characters) then 95%N else c) title)
    by (intros i c _; by rewrite dirNameReg_illegal).
  split; [done|].
  intros c Hc Hin.
  rewrite <- replace_class_first_find in Hin.
  apply replace_class_first_subseteq in Hin.
  apply list_elem_of_fmap in Hin as (d & -> & _).
  case_bool_decide as Hd; [|done].
  assert (Hu : dirNameReg 95 = false) by reflexivity.
  rewrite dirNameReg_illegal in Hu. by apply bool_decide_eq_false in Hu.
Qed.

(** ** The ancestor walk *)

Section Walk.

Implicit Types (m : gmap jsstring IProgressItem) (x : KnowledgeBase.Toc).

Lemma depth_functional m k n1 n2 :
  depth m k n1 -> depth m k n2 -> n1 = n2.
Proof.
  intros H1. revert n2.
  induction H1 as [k Hk|k p n Hk _ IH]; intros n2 H2; inversion H2; subst;
    try congruence.
  f_equal. apply IH. congruence.
Qed.

(** A key that lies deeper than [n] is not looked up on the way down from
    a key of depth [n], so it can be removed. *)
Lemma depth_delete m k k' n :
  depth m k' n ->
  (forall n', n' <= n -> ~ depth m k n') ->
  depth (delete k m) k' n.
Proof.
  induction 1 as [k' Hk'|k' p n Hk' Hd IH]; intros Hdeep.
  - apply depth_O. rewrite lookup_delete_None. by right.
  - assert (k <> k').
    { intros ->. apply (Hdeep (S n)); [lia|]. by eapply depth_S. }
    eapply depth_S.
    + by rewrite lookup_delete_ne.
    + apply IH. intros n' Hn'. apply Hdeep. lia.
Qed.

Lemma depth_le_size m k n :
  depth m k n -> n <= size m.
Proof.
  revert m k. induction n as [|n IH]; intros m k Hd; [lia|].
  inversion Hd as [|k0 p n0 Hk Hd']; subst.
  assert (Hdel : depth (delete k m) (KnowledgeBase.parent_uuid (toc p)) n).
  { apply depth_delete; [done|].
    intros n' Hn' Hd''. pose proof (depth_functional _ _ _ _ Hd Hd''). lia. }
  apply IH in Hdel.
  assert (Hsz : size m = S (size (delete k m))).
  { rewrite <- (insert_delete_id m k p Hk) at 1.
    apply map_size_insert_None, lookup_delete_eq. }
  lia.
Qed.

Lemma ancestorWalk_depth fuel m x titles ids r :
  ancestorWalk fuel m x titles ids = Some r ->
  exists n, depth m (KnowledgeBase.parent_uuid x) n /\ n < fuel.
Proof.
  revert x titles ids. induction fuel as [|fuel IH]; intros x titles ids; simpl; [done|].
  destruct (m !! KnowledgeBase.parent_uuid x) as [p|] eqn:Hp.
  - intros (n & Hn & Hlt)%IH. exists (S n). split; [by eapply depth_S|lia].
  - intros _. exists 0. split; [by apply depth_O|lia].
Qed.

Lemma depth_ancestorWalk fuel m x titles ids n :
  depth m (KnowledgeBase.parent_uuid x) n -> n < fuel ->
  is_Some (ancestorWalk fuel m x titles ids).
Proof.
  revert x titles ids n. induction fuel as [|fuel IH]; intros x titles ids n Hd Hlt; [lia|].
  simpl. inversion Hd as [k Hk|k p n' Hk Hd']; subst.
  - rewrite Hk. done.
  - rewrite Hk. eapply IH; [done|lia].
Qed.

Lemma ancestorWalk_mono fuel fuel' m x titles ids r :
  ancestorWalk fuel m x titles ids = Some r -> fuel <= fuel' ->
  ancestorWalk fuel' m x titles ids = Some r.
Proof.
  revert fuel' x titles ids. induction fuel as [|fuel IH]; intros fuel' x titles ids; simpl; [done|].
  intros Hw Hle. destruct fuel' as [|fuel']; [lia|]. simpl.
  destruct (m !! KnowledgeBase.parent_uuid x); [|done].
  apply IH; [done|lia].
Qed.

(** The bound of [dirItem] loses nothing: a walk that ends within any
    number of iterations ends within [S (size m)] of them. *)
Lemma ancestorWalk_enough fuel m x titles ids r :
  ancestorWalk fuel m x titles ids = Some r ->
  ancestorWalk (S (size m)) m x titles ids = Some r.
Proof.
  intros Hw. destruct (ancestorWalk_depth _ _ _ _ _ _ Hw) as (n & Hd & Hlt).
  pose proof (depth_le_size _ _ _ Hd) as Hsz.
  destruct (depth_ancestorWalk (S (size m)) m x titles ids n Hd) as [r' Hr']; [lia|].
  destruct (decide (fuel <= S (size m))).
  - by eapply ancestorWalk_mono.
  - rewrite Hr'. f_equal.
    assert (ancestorWalk fuel m x titles ids = Some r') as Hw'.
    { eapply ancestorWalk_mono; [done|lia]. }
    congruence.
Qed.

(** [dirItem] answers [None] only for a walk that no number of
    iterations ends. *)
Lemma dirItem_None m x :
  dirItem m x = None -> forall fuel, ancestorWalk fuel m x [] [] = None.
Proof.
  unfold dirItem. intros Hn fuel.
  destruct (ancestorWalk fuel m x [] []) as [r|] eqn:Hw; [|done].
  apply ancestorWalk_enough in Hw. rewrite Hw in Hn. by destruct r.
Qed.

Lemma ancestors_ancestorWalk m x chain fuel titles ids :
  ancestors m x chain -> length chain <= fuel ->
  ancestorWalk fuel m x titles ids =
    Some ((sanitize ∘ KnowledgeBase.title <$> chain) ++ titles,
          (KnowledgeBase.uuid <$> chain) ++ ids).
Proof.
  intros Ha. revert fuel titles ids.
  induction Ha as [x Hx|x p chain Hx _ IH]; intros fuel titles ids Hlen;
    (destruct fuel as [|fuel]; [simpl in Hlen; try rewrite length_app in Hlen; simpl in Hlen; lia|]);
    simpl; rewrite Hx.
  - done.
  - rewrite length_app in Hlen. simpl in Hlen.
    rewrite IH by lia. rewrite !fmap_app, <- !app_assoc. done.
Qed.

Lemma ancestorWalk_ancestors fuel m x titles ids r :
  ancestorWalk fuel m x titles ids = Some r ->
  exists chain, ancestors m x chain /\ length chain <= fuel /\
    r = ((sanitize ∘ KnowledgeBase.title <$> chain) ++ titles,
         (KnowledgeBase.uuid <$> chain) ++ ids).
Proof.
  revert x titles ids. induction fuel as [|fuel IH]; intros x titles ids; simpl; [done|].
  destruct (m !! KnowledgeBase.parent_uuid x) as [p|] eqn:Hp.
  - intros (chain & Ha & Hlen & ->)%IH. exists (chain ++ [x]). split; [|split].
    + by eapply ancestors_parent.
    + rewrite length_app. simpl. lia.
    + rewrite !fmap_app, <- !app_assoc. done.
  - intros [= <-]. exists [x]. split; [|split]; [by apply ancestors_root|simpl; lia|done].
Qed.

Lemma ancestors_functional m x chain1 chain2 :
  ancestors m x chain1 -> ancestors m x chain2 -> chain1 = chain2.
Proof.
  intros H1. revert chain2.
  induction H1 as [x Hx|x p chain Hx _ IH]; intros chain2 H2; inversion H2; subst;
    try congruence.
  f_equal. apply IH. congruence.
Qed.

Lemma ancestors_last m x chain :
  ancestors m x chain -> last chain = Some x.
Proof. destruct 1; [done|]. by rewrite last_snoc. Qed.

End Walk.

(** ** One iteration of the loop *)

Section Body.

Context (h : Host) (pbm : ProgressBarMethods) (w : World).
Context (bookId : Z) (bookPath articleUrlPrefix : jsstring).

Lemma join_snoc sep (l : list jsstring) x :
  l <> [] -> join sep (l ++ [x]) = join sep l ++ sep ++ x.
Proof.
  induction l as [|a l IH]; [done|]. intros _.
  destruct l as [|b l]; [done|].
  change (join sep ((a :: b :: l) ++ [x])) with (a ++ sep ++ join sep ((b :: l) ++ [x])).
  rewrite IH by done.
  change (join sep (a :: b :: l)) with (a ++ sep ++ join sep (b :: l)).
  by rewrite <- !app_assoc.
Qed.

Lemma uuidMap_article item st :
  uuidMap (article pbm w bookId bookPath articleUrlPrefix item st)
  = <[KnowledgeBase.uuid item := leafItem (uuidMap st) item]> (uuidMap st).
Proof.
  unfold article.
  destruct (downloadArticle _ _ _) as [events [b|message]]; done.
Qed.

Lemma directory_Normal item st st' :
  directory pbm w bookPath item st = Normal st' ->
  exists e, dirItem (uuidMap st) item = Some e
    /\ uuidMap st' = <[KnowledgeBase.uuid item := e]> (uuidMap st).
Proof.
  unfold directory. destruct (dirItem (uuidMap st) item) as [e|]; [|done].
  destruct (mkdir w _ _); [done|]. intros [= <-]. by exists e.
Qed.

Lemma dirItem_ancestors m item chain :
  ancestors m item chain ->
  dirItem m item =
    Some {| path := join (js "/") (sanitize ∘ KnowledgeBase.title <$> chain);
            pathTitleList := sanitize ∘ KnowledgeBase.title <$> chain;
            pathIdList := KnowledgeBase.uuid <$> chain;
            toc := item |}.
Proof.
  intros Ha. unfold dirItem.
  rewrite (ancestorWalk_enough (length chain) m item [] [] _
             (ancestors_ancestorWalk m item chain (length chain) [] [] Ha (le_n _))).
  by rewrite !app_nil_r.
Qed.

Lemma dirItem_Some m item e :
  dirItem m item = Some e ->
  exists chain, ancestors m item chain /\
    e = {| path := join (js "/") (sanitize ∘ KnowledgeBase.title <$> chain);
           pathTitleList := sanitize ∘ KnowledgeBase.title <$> chain;
           pathIdList := KnowledgeBase.uuid <$> chain;
           toc := item |}.
Proof.
  unfold dirItem.
  destruct (ancestorWalk _ m item [] []) as [[titles ids]|] eqn:Hw; [|done].
  intros [= <-].
  apply ancestorWalk_ancestors in Hw as (chain & Ha & _ & [= -> ->]).
  exists chain. by rewrite !app_nil_r.
Qed.

End Body.

(** C3.  A directory-like node that is not skipped is entered in the map
    with the titles and ids of its ancestor chain, root first and ending
    with the node itself, and with the join of these titles as its path;
    in the scenario of the specification [A] gets the path [Intro] (and
    [B] the path [Intro/Hello.md]). *)
Theorem directory_path_is_ancestor_chain :
  (forall h pbm w bookId bookPath articleUrlPrefix item type_ chain st,
      KnowledgeBase.type item = Some type_ ->
      uuidMap st !! KnowledgeBase.uuid item = None ->
      isDirectory h type_ item = true ->
      ancestors (uuidMap st) item chain ->
      let titles := sanitize ∘ KnowledgeBase.title <$> chain in
      mkdir w (length (trace st)) (bookPath ++ js "/" ++ join (js "/") titles) = None ->
      last chain = Some item /\
      exists st',
        loopBody h pbm w bookId bookPath articleUrlPrefix item st = Normal st' /\
        uuidMap st' !! KnowledgeBase.uuid item =
          Some {| path := join (js "/") titles;
                  pathTitleList := titles;
                  pathIdList := KnowledgeBase.uuid <$> chain;
                  toc := item |})
  /\ (forall h pbm w bookId bookPath articleUrlPrefix item type_ st st',
        KnowledgeBase.type item = Some type_ ->
        uuidMap st !! KnowledgeBase.uuid item = None ->
        isDirectory h type_ item = true ->
        loopBody h pbm w bookId bookPath articleUrlPrefix item st = Normal st' ->
        exists chain,
          ancestors (uuidMap st) item chain /\
          uuidMap st' !! KnowledgeBase.uuid item =
            Some {| path := join (js "/") (sanitize ∘ KnowledgeBase.title <$> chain);
                    pathTitleList := sanitize ∘ KnowledgeBase.title <$> chain;
                    pathIdList := KnowledgeBase.uuid <$> chain;
                    toc := item |})
  /\ (forall pbm pb events,
        exists st,
          loop (demoHost None) pbm (demoWorld [] [] []) 7 (js "out/7") demoUrl
            [nodeA; nodeB] (freshState pb events) = Normal st /\
          (path <$> uuidMap st !! js "A") = Some (js "Intro") /\
          (path <$> uuidMap st !! js "B") = Some (js "Intro/Hello.md")).
Proof.
  split; [|split].
  - intros h pbm w bookId bookPath articleUrlPrefix item type_ chain st
      Htype Hfresh Hdir Ha titles Hmk.
    split; [by eapply ancestors_last|].
    unfold loopBody, directory. rewrite Htype, Hfresh, Hdir.
    rewrite (dirItem_ancestors _ _ _ Ha). cbn [pathTitleList].
    fold titles. rewrite Hmk. eexists. split; [done|].
    cbn [uuidMap]. apply lookup_insert_eq.
  - intros h pbm w bookId bookPath articleUrlPrefix item type_ st st'
      Htype Hfresh Hdir. unfold loopBody. rewrite Htype, Hfresh, Hdir.
    intros (e & (chain & Ha & ->)%dirItem_Some & ->)%directory_Normal.
    exists chain. split; [done|]. apply lookup_insert_eq.
  - intros pbm pb events. eexists. split; [reflexivity|].
    split; vm_compute; reflexivity.
Qed.

(** The directory [A] of the scenario, entered from the empty map. *)
Lemma directory_path_is_ancestor_chain_witness :
  exists st',
    loopBody (demoHost None) specProgressBar (demoWorld [] [] []) 7 (js "out/7") demoUrl
      nodeA (freshState (spec_init [] {| bookPath := js "out/7"; total := 2; curr := 0;
                                         progressInfo := []; isDownloadInterrupted := false |}) [])
    = Normal st' /\
    (path <$> uuidMap st' !! js "A") = Some (js "Intro").
Proof.
  destruct (proj1 directory_path_is_ancestor_chain
              (demoHost None) specProgressBar (demoWorld [] [] []) 7%Z (js "out/7") demoUrl
              nodeA (js "TITLE") [nodeA]
              (freshState (spec_init [] {| bookPath := js "out/7"; total := 2; curr := 0;
                                           progressInfo := []; isDownloadInterrupted := false |}) []))
    as [_ (st' & Hbody & Hentry)].
  - reflexivity.
  - reflexivity.
  - reflexivity.
  - apply ancestors_root. reflexivity.
  - reflexivity.
  - exists st'. split; [exact Hbody|].
    change (js "A") with (KnowledgeBase.uuid nodeA). rewrite Hentry. reflexivity.
Defined.

Lemma leafItem_consistent m item : consistent (leafItem m item).
Proof.
  unfold leafItem. destruct (preItem m item) as [[? preTitles] ?].
  split; [done|]. cbn [pathTitleList]. by destruct preTitles.
Qed.

Lemma dirItem_consistent m item e : dirItem m item = Some e -> consistent e.
Proof.
  intros (chain & Ha & ->)%dirItem_Some. split; [done|]. cbn [pathTitleList].
  destruct Ha; [done|]. rewrite fmap_app. by destruct (_ <$> chain).
Qed.

(** C4.  An article that is not skipped is entered in the map with the
    titles and ids of its parent's entry extended by its own file name
    (the sanitized title and [.md]) and its own id, and with the parent's
    path extended by a slash and the file name; when the parent is not in
    the map the entry has the file name as its path and no ancestor. *)
Theorem leaf_extends_parent_entry
    h pbm w bookId bookPath articleUrlPrefix item type_ st :
  KnowledgeBase.type item = Some type_ ->
  uuidMap st !! KnowledgeBase.uuid item = None ->
  isDirectory h type_ item = false ->
  KnowledgeBase.url item <> [] ->
  (forall parent, uuidMap st !! KnowledgeBase.parent_uuid item = Some parent -> consistent parent) ->
  let fileName := sanitize (KnowledgeBase.title item) ++ js ".md" in
  exists st' e,
    loopBody h pbm w bookId bookPath articleUrlPrefix item st = Normal st' /\
    uuidMap st' !! KnowledgeBase.uuid item = Some e /\
    toc e = item /\
    consistent e /\
    match uuidMap st !! KnowledgeBase.parent_uuid item with
    | Some parent =>
        path e = path parent ++ js "/" ++ fileName /\
        pathTitleList e = pathTitleList parent ++ [fileName] /\
        pathIdList e = pathIdList parent ++ [KnowledgeBase.uuid item]
    | None =>
        path e = fileName /\
        pathTitleList e = [fileName] /\
        pathIdList e = [KnowledgeBase.uuid item]
    end.
Proof.
  intros Htype Hfresh Hdir Hurl Hparent fileName.
  exists (article pbm w bookId bookPath articleUrlPrefix item st),
         (leafItem (uuidMap st) item).
  split; [|split; [|split; [|split]]].
  - unfold loopBody. rewrite Htype, Hfresh, Hdir.
    by destruct (KnowledgeBase.url item).
  - rewrite uuidMap_article. apply lookup_insert_eq.
  - unfold leafItem. by destruct (preItem _ _) as [[? ?] ?].
  - apply leafItem_consistent.
  - unfold leafItem, preItem.
    destruct (uuidMap st !! KnowledgeBase.parent_uuid item) as [parent|] eqn:Hp;
      cbn [path pathTitleList pathIdList]; [|done].
    split; [|done].
    destruct (Hparent parent eq_refl) as [-> Hne].
    by apply join_snoc.
Qed.

(** The article [B] of the scenario, entered after its parent [A]. *)
Lemma leaf_extends_parent_entry_witness :
  exists st' e,
    loopBody (demoHost None) specProgressBar (demoWorld [] [] []) 7 (js "out/7") demoUrl
      nodeB afterA = Normal st'
    /\ uuidMap st' !! js "B" = Some e
    /\ path e = js "Intro/Hello.md"
    /\ pathTitleList e = [js "Intro"; js "Hello.md"]
    /\ pathIdList e = [js "A"; js "B"].
Proof.
  destruct (leaf_extends_parent_entry
              (demoHost None) specProgressBar (demoWorld [] [] []) 7%Z (js "out/7") demoUrl
              nodeB (js "DOC") afterA)
    as (st' & e & Hbody & Hentry & _ & _ & Hparent).
  - reflexivity.
  - reflexivity.
  - reflexivity.
  - discriminate.
  - intros parent Hp.
    assert (parent = entryA) as ->.
    { vm_compute in Hp. injection Hp as <-. reflexivity. }
    split; [reflexivity|discriminate].
  - exists st', e. split; [exact Hbody|]. split; [exact Hentry|].
    change (uuidMap afterA !! KnowledgeBase.parent_uuid nodeB) with (Some entryA) in Hparent.
    exact Hparent.
Defined.




(** ** The whole run *)

Section Loop.

Context (h : Host) (pbm : ProgressBarMethods) (w : World).
Context (bookId : Z) (bookPath articleUrlPrefix : jsstring).

(** A property of the state that every iteration keeps is kept by the
    loop. *)
Lemma loop_invariant (P : LoopState -> Prop) items st st' :
  (forall x s s',
      x ∈ items -> P s ->
      loopBody h pbm w bookId bookPath articleUrlPrefix x s = Normal s' -> P s') ->
  P st ->
  loop h pbm w bookId bookPath articleUrlPrefix items st = Normal st' ->
  P st'.
Proof.
  revert st. induction items as [|x items IH]; intros st Hstep HP; simpl; [by intros [= <-]|].
  destruct (loopBody _ _ _ _ _ _ x st) as [st1| |] eqn:Hbody; [|done..].
  apply IH.
  - intros y s s' Hy. apply Hstep. by right.
  - eapply Hstep; [by left|done..].
Qed.

(** Nothing but a failing directory creation makes the loop throw. *)
Lemma loopBody_Thrown item st message events :
  loopBody h pbm w bookId bookPath articleUrlPrefix item st = Thrown message events ->
  exists dir, mkdir w (length (trace st)) dir = Some message
    /\ events = trace st ++ [fs_mkdir dir].
Proof.
  unfold loopBody, directory.
  destruct (KnowledgeBase.type item) as [type_|]; [|done].
  destruct (uuidMap st !! KnowledgeBase.uuid item); [done|].
  destruct (isDirectory h type_ item).
  - destruct (dirItem (uuidMap st) item) as [e|]; [|done].
    destruct (mkdir w _ _) as [m|] eqn:Hmk; [|done].
    intros [= <- <-]. eauto.
  - by destruct (KnowledgeBase.url item).
Qed.

Lemma loop_Thrown items st message events :
  loop h pbm w bookId bookPath articleUrlPrefix items st = Thrown message events ->
  exists now dir, mkdir w now dir = Some message /\ last events = Some (fs_mkdir dir).
Proof.
  revert st. induction items as [|item items IH]; intros st; simpl; [done|].
  destruct (loopBody _ _ _ _ _ _ item st) as [st'|m ev|ev] eqn:Hbody; [by apply IH| |done].
  intros [= <- <-]. apply loopBody_Thrown in Hbody as (dir & Hmk & ->).
  exists (length (trace st)), dir. by rewrite last_snoc.
Qed.

End Loop.

Lemma getKnowledgeBaseInfo_events h w now url :
  (getKnowledgeBaseInfo h w now url).1 = [axios_get url].
Proof. done. Qed.




(** C8, as the code has it.  When the progress loaded by [init] is
    complete, [main] returns at once: it has requested the page, made the
    book directory (line 123 comes before the progress is read), read the
    progress and printed the last line; it fetches no article, makes no
    directory for a node, updates no progress and reports no failure. *)
Theorem complete_progress_returns_at_once h pbm w url options info n tocList_ :
  (getKnowledgeBaseInfo h w 0 url).2 = Resolved info ->
  bookId info = Some n -> n <> 0%Z ->
  tocList info = Some tocList_ -> tocList_ <> [] ->
  let bookPath_ := distDir options ++ js "/" ++ String_number n in
  mkdir w 1 bookPath_ = None ->
  curr (init pbm (progress_json w)
          {| bookPath := bookPath_; total := length tocList_; curr := 0;
             progressInfo := []; isDownloadInterrupted := false |})
  = length tocList_ ->
  main h pbm w url options =
    Normal (AlreadyComplete
              [axios_get url; fs_mkdir bookPath_; progressBar_init; logger LogDone]).
Proof.
  intros Hinfo Hid Hn Htoc Hne bookPath_ Hmk Hcurr. unfold main.
  destruct (getKnowledgeBaseInfo h w 0 url) as [events0 r] eqn:Hget.
  pose proof (getKnowledgeBaseInfo_events h w 0 url) as Hev. rewrite Hget in Hev.
  simpl in Hinfo, Hev. subst r events0.
  rewrite Hid, Htoc. destruct n as [|n|n]; [done| |];
    (destruct tocList_ as [|item items]; [done|]);
    unfold download; cbn [length app]; fold bookPath_; rewrite Hmk;
    rewrite decide_True by exact Hcurr; done.
Qed.

(** A book of one node whose record is in the store. *)
Lemma complete_progress_returns_at_once_witness :
  main (demoHost (Some (mkBook [nodeA]))) specProgressBar
    (demoWorld [] [] [entryA])
    demoUrl demoOptions
  = Normal (AlreadyComplete
              [axios_get demoUrl; fs_mkdir (js "out/7"); progressBar_init; logger LogDone]).
Proof.
  apply (complete_progress_returns_at_once
           (demoHost (Some (mkBook [nodeA]))) specProgressBar
           (demoWorld [] [] [entryA])
           demoUrl demoOptions
           {| bookId := Some 7%Z; bookSlug := Some (js "kb"); tocList := Some [nodeA];
              bookName := Some (js "Book"); bookDesc := Some [] |} 7%Z [nodeA]).
  - reflexivity.
  - reflexivity.
  - discriminate.
  - reflexivity.
  - discriminate.
  - reflexivity.
  - reflexivity.
Defined.

(** The run on complete progress does call [fs.mkdir] once. *)
Lemma complete_progress_makes_book_directory :
  exists events,
    main (demoHost (Some (mkBook [nodeA]))) specProgressBar
      (demoWorld [] [] [entryA])
      demoUrl demoOptions
    = Normal (AlreadyComplete events)
    /\ fs_mkdir (js "out/7") ∈ events.
Proof.
  eexists. split; [reflexivity|]. apply elem_of_cons. right. apply elem_of_cons. by left.
Qed.

(** ** The two collaborators *)

Lemma greedy_group_nonempty s g : greedy_group s = Some g -> g <> [].
Proof.
  destruct s as [|c s]; cbn [greedy_group]; [done|].
  repeat case_match; try done; by intros [= <-].
Qed.

Lemma match_knowledgeBaseReg_nonempty html g :
  match_knowledgeBaseReg html = Some g -> g <> [].
Proof.
  induction html as [|c html IH]; [done|].
  cbn [match_knowledgeBaseReg].
  destruct (startsWith knowledgeBaseReg_open (c :: html)).
  - destruct (greedy_group _) as [g'|] eqn:Hg; [|done].
    intros [= <-]. by eapply greedy_group_nonempty.
  - done.
Qed.

Lemma startsWith_true p s : startsWith p s = true <-> exists rest, s = p ++ rest.
Proof.
  revert s. induction p as [|a p IH]; intros s; simpl.
  - split; [by exists s|done].
  - destruct s as [|b s].
    + split; [done|]. by intros [rest Hrest].
    + case_decide as Hab.
      * subst b. rewrite IH. split; intros [rest Hrest]; exists rest; congruence.
      * split; [done|]. intros [rest Hrest]. congruence.
Qed.

Lemma greedy_group_sound s g :
  greedy_group s = Some g ->
  g <> [] /\ Forall (fun c => isLineTerminator c = false) g
  /\ exists post, s = g ++ knowledgeBaseReg_close ++ post.
Proof.
  revert g. induction s as [|c s IH]; intros g; cbn [greedy_group]; [done|].
  destruct (isLineTerminator c) eqn:Hc; [done|].
  destruct (greedy_group s) as [g'|].
  - intros [= <-]. destruct (IH g' eq_refl) as (_ & Hall & post & ->).
    split; [done|]. split; [by constructor|]. by exists post.
  - destruct (startsWith knowledgeBaseReg_close s) eqn:Hs; [|done].
    intros [= <-]. apply startsWith_true in Hs as [post ->].
    split; [done|]. split; [by repeat constructor|]. by exists post.
Qed.

Lemma greedy_group_complete g post :
  g <> [] -> Forall (fun c => isLineTerminator c = false) g ->
  is_Some (greedy_group (g ++ knowledgeBaseReg_close ++ post)).
Proof.
  induction g as [|c g IH]; [done|]. intros _ [Hc Hg]%Forall_cons.
  cbn [app greedy_group]. rewrite Hc.
  destruct g as [|c' g].
  - destruct (greedy_group _); [done|].
    cbn [app]. rewrite (proj2 (startsWith_true _ _)) by by exists post. done.
  - destruct (IH ltac:(done) Hg) as [g' ->]. done.
Qed.

(** [match_knowledgeBaseReg] finds a group exactly when the page has a
    data block. *)
Lemma match_knowledgeBaseReg_has_block html :
  is_Some (match_knowledgeBaseReg html) <-> has_block html.
Proof.
  split.
  - intros [g Hg]. induction html as [|c html IH]; [done|].
    cbn [match_knowledgeBaseReg] in Hg.
    destruct (startsWith knowledgeBaseReg_open (c :: html)) eqn:Hs.
    + destruct (greedy_group _) as [g'|] eqn:Hg'.
      * apply startsWith_true in Hs as [rest Hrest]. rewrite Hrest in Hg'.
        rewrite drop_app_length in Hg'.
        apply greedy_group_sound in Hg' as (Hne & Hall & post & ->).
        exists [], g', post. by rewrite Hrest.
      * destruct (IH Hg) as (pre & g0 & post & -> & ? & ?).
        by exists (c :: pre), g0, post.
    + destruct (IH Hg) as (pre & g0 & post & -> & ? & ?).
      by exists (c :: pre), g0, post.
  - intros (pre & g & post & -> & Hne & Hall).
    induction pre as [|c pre IH].
    + cbn [app]. destruct (knowledgeBaseReg_open ++ _) as [|c s] eqn:E; [done|].
      cbn [match_knowledgeBaseReg]. rewrite <- E.
      rewrite (proj2 (startsWith_true _ _)) by by eexists.
      rewrite drop_app_length.
      destruct (greedy_group_complete g post Hne Hall) as [g' ->]. done.
    + cbn [app match_knowledgeBaseReg].
      destruct (if startsWith _ _ then _ else _); [done|]. exact IH.
Qed.

Lemma getKnowledgeBaseInfo_cases h w now url :
  (forall message,
      (getKnowledgeBaseInfo h w now url).2 = Rejected message <->
      get_page w now url = AxiosError message
      \/ exists data block,
           get_page w now url = AxiosResponse 200 data
           /\ match_knowledgeBaseReg (default [] data) = Some block
           /\ (decodeURIComponent h block = Rejected message
               \/ exists decoded,
                    decodeURIComponent h block = Resolved decoded
                    /\ JSON_parse h decoded = Rejected message))
  /\ ((getKnowledgeBaseInfo h w now url).2 = Resolved emptyInfo <->
      exists status data,
        get_page w now url = AxiosResponse status data
        /\ (status <> 200%Z
            \/ match_knowledgeBaseReg (default [] data) = None
            \/ exists block decoded jsonData,
                 match_knowledgeBaseReg (default [] data) = Some block
                 /\ decodeURIComponent h block = Resolved decoded
                 /\ JSON_parse h decoded = Resolved jsonData
                 /\ KnowledgeBase.book jsonData = None)).
Proof.
  unfold getKnowledgeBaseInfo. cbn [snd].
  destruct (get_page w now url) as [status data|m]; cbn [then_ from_option id].
  2:{ split.
      - intros message. split.
        + intros [= ->]. by left.
        + intros [[= ->]|(? & ? & ? & _)]; done.
      - split; [done|]. by intros (? & ? & ? & _). }
  destruct (decide (status = 200%Z)) as [->|Hs]; cbn [then_ from_option id].
  2:{ split.
      - intros message. split; [done|].
        intros [?|(? & ? & [= ? ?] & _)]; done.
      - split; [|done]. intros _. exists status, data. split; [done|]. by left. }
  destruct (match_knowledgeBaseReg (default [] data)) as [block|] eqn:Hm;
    cbn [from_option id].
  2:{ split.
      - intros message. split; [done|].
        intros [?|(? & ? & [= <-] & Hm' & _)]; [done|]. congruence.
      - split; [|done]. intros _. exists 200%Z, data. split; [done|]. right. by left. }
  pose proof (match_knowledgeBaseReg_nonempty _ _ Hm) as Hne.
  destruct block as [|c block]; [done|].
  destruct (decodeURIComponent h (c :: block)) as [decoded|m1] eqn:Hd; cbn [then_ from_option id].
  2:{ split.
      - intros message. split.
        + intros [= ->]. right. exists data, (c :: block). split; [done|]. split; [done|].
          by left.
        + intros [?|(d' & b' & [= <-] & Hm' & Hr)]; [done|].
          rewrite Hm in Hm'. injection Hm' as <-.
          destruct Hr as [Hr|(? & Hr & _)]; congruence.
      - split; [done|].
        intros (s' & d' & [= <- <-] & [?|[?|(b' & dec & j & Hm' & Hd' & _)]]); [done|congruence|].
        rewrite Hm in Hm'. injection Hm' as <-. congruence. }
  destruct (JSON_parse h decoded) as [jsonData|m2] eqn:Hj; cbn [then_ from_option id].
  2:{ split.
      - intros message. split.
        + intros [= ->]. right. exists data, (c :: block). split; [done|]. split; [done|].
          right. by exists decoded.
        + intros [?|(d' & b' & [= <-] & Hm' & Hr)]; [done|].
          rewrite Hm in Hm'. injection Hm' as <-.
          destruct Hr as [Hr|(dec & Hr & Hr')]; congruence.
      - split; [done|].
        intros (s' & d' & [= <- <-] & [?|[?|(b' & dec & j & Hm' & Hd' & Hj' & _)]]); [done|congruence|].
        rewrite Hm in Hm'. injection Hm' as <-. congruence. }
  destruct (KnowledgeBase.book jsonData) as [book|] eqn:Hb.
  - split.
    + intros message. split; [done|].
      intros [?|(d' & b' & [= <-] & Hm' & Hr)]; [done|].
      rewrite Hm in Hm'. injection Hm' as <-.
      destruct Hr as [Hr|(dec & Hr & Hr')]; congruence.
    + split; [done|].
      intros (s' & d' & [= <- <-] & [?|[?|(b' & dec & j & Hm' & Hd' & Hj' & Hb')]]); [done|congruence|].
      rewrite Hm in Hm'. injection Hm' as <-. congruence.
  - split.
    + intros message. split; [done|].
      intros [?|(d' & b' & [= <-] & Hm' & Hr)]; [done|].
      rewrite Hm in Hm'. injection Hm' as <-.
      destruct Hr as [Hr|(dec & Hr & Hr')]; congruence.
    + split; [|done]. intros _. exists 200%Z, data. split; [done|]. right. right.
      by exists (c :: block), decoded, jsonData.
Qed.



Lemma startsWith_app p s : startsWith p (p ++ s) = true.
Proof.
  induction p as [|a p IH]; simpl; [done|]. by rewrite decide_True.
Qed.

Lemma includes_app a p b : includes p (a ++ p ++ b) = true.
Proof.
  induction a as [|x a IH].
  - simpl. destruct (p ++ b) eqn:E; simpl; rewrite <- ?E, startsWith_app; done.
  - cbn [app includes]. rewrite IH. apply orb_true_r.
Qed.

Lemma fetch_sourcecode_Rejected w now apiUrl message :
  fetch_sourcecode w now apiUrl = Rejected message ->
  exists reason, message = js "download article Error: " ++ apiUrl ++ js " " ++ reason.
Proof.
  unfold fetch_sourcecode.
  destruct (get_doc w now apiUrl) as [status apiRes|m]; cbn [then_ catch_].
  - destruct (decide _).
    + destruct apiRes as [[[[[|c s]]|]]|]; cbn [catch_]; intros [= <-]; eauto.
    + cbn [catch_]. intros [= <-]. eauto.
  - intros [= <-]. eauto.
Qed.

(** C10, as the code has it.  [downloadArticle] never resolves to
    [false].  It resolves to [true] after the final text has been written
    to [saveFilePath]; otherwise it rejects with a message that starts
    with [download article].  The message holds the API URL when the
    request failed and the article URL when the write failed; when the
    image step failed it holds the image URL only if the error carries
    both [error] and [url]. *)
Theorem downloadArticle_outcomes w now params :
  let apiUrl := apiUrl_of (Params.bookId params) (Params.itemUrl params) in
  let imgDir := js "img/" ++ Params.uuid params in
  let result := (downloadArticle w now params).2 in
  let events := (downloadArticle w now params).1 in
  result <> Resolved false
  /\ ((exists sourcecode mdData,
         result = Resolved true
         /\ fetch_sourcecode w now apiUrl = Resolved sourcecode
         /\ run_mdImg w (S now) sourcecode (Params.savePath params) imgDir = inr mdData
         /\ writeFile w (S (S now)) (Params.saveFilePath params)
              (final_text mdData (Params.articleTitle params) (Params.articleUrl params)) = None
         /\ last events =
              Some (fs_writeFile (Params.saveFilePath params)
                      (final_text mdData (Params.articleTitle params) (Params.articleUrl params))))
      \/ exists message,
           result = Rejected message
           /\ startsWith (js "download article") message = true
           /\ ((fetch_sourcecode w now apiUrl = Rejected message
                /\ includes apiUrl message = true)
               \/ (exists sourcecode e,
                     run_mdImg w (S now) sourcecode (Params.savePath params) imgDir = inl e
                     /\ message = image_error_message e
                     /\ (is_Some (error e) -> url_ e <> [] ->
                         includes (url_ e) message = true))
               \/ (exists sourcecode mdData reason,
                     writeFile w (S (S now)) (Params.saveFilePath params) mdData = Some reason
                     /\ last events = Some (fs_writeFile (Params.saveFilePath params) mdData)
                     /\ fetch_sourcecode w now apiUrl = Resolved sourcecode
                     /\ includes (Params.articleUrl params) message = true))).
Proof.
  intros apiUrl imgDir result events. subst result events. unfold downloadArticle.
  fold apiUrl. fold imgDir.
  destruct (fetch_sourcecode w now apiUrl) as [sourcecode|message] eqn:Hfetch; cbn [fst snd].
  2:{ split; [done|]. right. exists message. split; [done|].
      destruct (fetch_sourcecode_Rejected _ _ _ _ Hfetch) as (reason & ->).
      split; [reflexivity|]. left. split; [done|].
      apply (includes_app (js "download article Error: ") apiUrl (js " " ++ reason)). }
  destruct (run_mdImg w (S now) sourcecode (Params.savePath params) imgDir)
    as [e|mdData] eqn:Himg; cbn [fst snd].
  { split; [done|]. right. exists (image_error_message e). split; [done|]. split.
    - unfold image_error_message. by destruct (error e), (url_ e).
    - right. left. exists sourcecode, e. split; [done|]. split; [done|].
      intros [m Hm] Hurl. unfold image_error_message. rewrite Hm.
      destruct (url_ e) as [|c u] eqn:Hu; [done|].
      apply (includes_app (js "download article image Error ") (c :: u) (js ": " ++ m)). }
  destruct (writeFile w (S (S now)) (Params.saveFilePath params) _) as [reason|] eqn:Hw;
    cbn [fst snd].
  - split; [done|]. right. eexists. split; [done|]. split; [reflexivity|].
    right. right. eexists sourcecode, _, reason. split; [exact Hw|].
    split; [by rewrite last_snoc|]. split; [done|].
    apply (includes_app (js "download article Error ") (Params.articleUrl params)
             (js ": " ++ reason)).
  - split; [done|]. left. exists sourcecode, mdData.
    split; [done|]. split; [done|]. split; [done|]. split; [done|].
    by rewrite last_snoc.
Qed.

(** The image step fails with an error that has a URL but no [error]:
    the message names neither that URL nor the article. *)
Lemma image_error_without_url :
  let w := withImageError {| message := js "boom"; error := None;
                             url_ := js "http://img/1.png" |} (demoWorld [] [] []) in
  let message := js "download article image Error: boom" in
  (downloadArticle w 0 demoParams).2 = Rejected message
  /\ includes (js "http://img/1.png") message = false
  /\ includes (Params.articleUrl demoParams) message = false
  /\ includes (apiUrl_of (Params.bookId demoParams) (Params.itemUrl demoParams)) message = false.
Proof. repeat split; reflexivity. Qed.

(** ** The resolution map of a run *)

Section Resolve.

Context (h : Host).
Implicit Types (m : gmap jsstring IProgressItem) (x : KnowledgeBase.Toc).

Lemma loopBody_resolveStep pbm w bookId bookPath articleUrlPrefix x st st' :
  loopBody h pbm w bookId bookPath articleUrlPrefix x st = Normal st' ->
  resolveStep h (uuidMap st) x = Some (uuidMap st').
Proof.
  unfold loopBody, resolveStep.
  destruct (KnowledgeBase.type x) as [type_|]; [|by intros [= <-]].
  destruct (uuidMap st !! KnowledgeBase.uuid x); [by intros [= <-]|].
  destruct (isDirectory h type_ x).
  - intros (e & -> & ->)%directory_Normal. done.
  - destruct (KnowledgeBase.url x); intros [= <-]; [done|].
    by rewrite uuidMap_article.
Qed.

Lemma loop_resolve pbm w bookId bookPath articleUrlPrefix items st st' :
  loop h pbm w bookId bookPath articleUrlPrefix items st = Normal st' ->
  resolve h (uuidMap st) items = Some (uuidMap st').
Proof.
  revert st. induction items as [|x items IH]; intros st; simpl; [by intros [= <-]|].
  destruct (loopBody _ _ _ _ _ _ x st) as [st1| |] eqn:Hbody; [|done..].
  rewrite (loopBody_resolveStep _ _ _ _ _ _ _ _ Hbody). apply IH.
Qed.

Lemma resolve_app m l1 l2 :
  resolve h m (l1 ++ l2) = resolve h m l1 ≫= fun m' => resolve h m' l2.
Proof.
  revert m. induction l1 as [|x l1 IH]; intros m; simpl; [done|].
  destruct (resolveStep h m x); [apply IH|done].
Qed.

(** An iteration leaves the map alone or enters the node under a key
    that was free. *)
Lemma resolveStep_cases m x m' :
  resolveStep h m x = Some m' ->
  m' = m \/
  exists e, m !! KnowledgeBase.uuid x = None /\ toc e = x
    /\ m' = <[KnowledgeBase.uuid x := e]> m.
Proof.
  unfold resolveStep.
  destruct (KnowledgeBase.type x) as [type_|]; [|intros [= <-]; by left].
  destruct (m !! KnowledgeBase.uuid x) eqn:Hx; [intros [= <-]; by left|].
  destruct (isDirectory h type_ x).
  - destruct (dirItem m x) as [e|] eqn:He; [|done]. intros [= <-]. right.
    exists e. split; [done|]. split; [|done].
    by apply dirItem_Some in He as (chain & _ & ->).
  - destruct (KnowledgeBase.url x); intros [= <-]; [by left|]. right.
    exists (leafItem m x). split; [done|]. split; [|done].
    unfold leafItem. by destruct (preItem m x) as [[? ?] ?].
Qed.

Lemma resolveStep_subseteq m x m' : resolveStep h m x = Some m' -> m ⊆ m'.
Proof.
  intros [->|(e & Hx & _ & ->)]%resolveStep_cases; [done|].
  by apply insert_subseteq.
Qed.

Lemma resolve_subseteq m items m' : resolve h m items = Some m' -> m ⊆ m'.
Proof.
  revert m. induction items as [|x items IH]; intros m; simpl; [by intros [= <-]|].
  destruct (resolveStep h m x) as [m1|] eqn:Hs; [|done].
  intros Hr. etrans; [by eapply resolveStep_subseteq|by apply IH].
Qed.

Lemma resolveStep_entries_of nodes m x m' :
  entries_of nodes m -> x ∈ nodes -> resolveStep h m x = Some m' ->
  entries_of nodes m'.
Proof.
  intros Hm Hx [->|(e & _ & He & ->)]%resolveStep_cases; [done|].
  intros k e'. rewrite lookup_insert. case_decide as Hk.
  - intros [= <-]. rewrite He. by subst k.
  - apply Hm.
Qed.

Lemma resolve_entries_of nodes m items m' :
  entries_of nodes m -> items ⊆ nodes -> resolve h m items = Some m' ->
  entries_of nodes m'.
Proof.
  revert m. induction items as [|x items IH]; intros m Hm Hsub; simpl; [by intros [= <-]|].
  destruct (resolveStep h m x) as [m1|] eqn:Hs; [|done].
  apply IH.
  - eapply resolveStep_entries_of; [done| |done]. apply Hsub. by left.
  - intros y Hy. apply Hsub. by right.
Qed.

(** A key that enters the map during a pass is the uuid of a node of the
    pass. *)
Lemma resolve_new_key m items m' k :
  resolve h m items = Some m' -> m !! k = None -> is_Some (m' !! k) ->
  k ∈ KnowledgeBase.uuid <$> items.
Proof.
  revert m. induction items as [|x items IH]; intros m; simpl.
  - intros [= <-] Hk [e He]. congruence.
  - destruct (resolveStep h m x) as [m1|] eqn:Hs; [|done].
    intros Hr Hk Hk'.
    destruct (decide (k = KnowledgeBase.uuid x)) as [->|Hne]; [by left|].
    right. apply (IH m1); [done| |done].
    apply resolveStep_cases in Hs as [->|(e & _ & _ & ->)]; [done|].
    by rewrite lookup_insert_ne.
Qed.

(** Every entry that a pass enters is consistent. *)
Lemma resolveStep_consistent m x m' :
  (forall k e, m !! k = Some e -> consistent e) ->
  resolveStep h m x = Some m' ->
  forall k e, m' !! k = Some e -> consistent e.
Proof.
  intros Hm. unfold resolveStep.
  destruct (KnowledgeBase.type x) as [type_|]; [|by intros [= <-]].
  destruct (m !! KnowledgeBase.uuid x); [by intros [= <-]|].
  destruct (isDirectory h type_ x).
  - destruct (dirItem m x) as [e0|] eqn:He; [|done]. intros [= <-] k e.
    rewrite lookup_insert. case_decide; [|by apply Hm].
    intros [= <-]. by eapply dirItem_consistent.
  - destruct (KnowledgeBase.url x); intros [= <-]; [done|]. intros k e.
    rewrite lookup_insert. case_decide; [|by apply Hm].
    intros [= <-]. apply leafItem_consistent.
Qed.

Lemma loop_consistent pbm w bookId bookPath articleUrlPrefix items st st' :
  (forall k e, uuidMap st !! k = Some e -> consistent e) ->
  loop h pbm w bookId bookPath articleUrlPrefix items st = Normal st' ->
  forall k e, uuidMap st' !! k = Some e -> consistent e.
Proof.
  intros Hm Hloop. apply loop_resolve in Hloop. revert Hm Hloop.
  generalize (uuidMap st) (uuidMap st'). clear st st'.
  induction items as [|x items IH]; intros m m' Hm; simpl; [by intros [= <-]|].
  destruct (resolveStep h m x) as [m1|] eqn:Hs; [|done].
  apply IH. by eapply resolveStep_consistent.
Qed.

End Resolve.

(** ** Ordered node lists *)

Section Ordered.

Context (h : Host).
Implicit Types (m : gmap jsstring IProgressItem) (x : KnowledgeBase.Toc).

Lemma ordered_app_l l1 l2 y :
  ordered (l1 ++ l2) -> y ∈ l1 ->
  KnowledgeBase.parent_uuid y ∉ KnowledgeBase.uuid <$> l2.
Proof.
  intros Hord (i & Hi)%list_elem_of_lookup (z & Hz & (j & Hj)%list_elem_of_lookup)%list_elem_of_fmap.
  pose proof (lookup_lt_Some _ _ _ Hi) as Hlt.
  assert (length l1 + j < i); [|lia].
  eapply (Hord i (length l1 + j) y z).
  - by rewrite lookup_app_l.
  - rewrite lookup_app_r by lia. by replace (length l1 + j - length l1) with j by lia.
  - done.
Qed.

Lemma ordered_app_head l1 x l2 :
  ordered (l1 ++ x :: l2) ->
  KnowledgeBase.parent_uuid x ∉ KnowledgeBase.uuid <$> (x :: l2).
Proof.
  intros Hord (z & Hz & (j & Hj)%list_elem_of_lookup)%list_elem_of_fmap.
  assert (length l1 + j < length l1); [|lia].
  eapply (Hord (length l1) (length l1 + j) x z).
  - rewrite lookup_app_r by lia. by rewrite Nat.sub_diag.
  - rewrite lookup_app_r by lia. by replace (length l1 + j - length l1) with j by lia.
  - done.
Qed.

(** Over an ordered list every ancestor walk ends: the nodes it visits
    stand at smaller and smaller indices. *)
Lemma ordered_depth nodes m k :
  ordered nodes -> entries_of nodes m -> exists n, depth m k n.
Proof.
  intros Hord Hm.
  assert (Hbound : forall j k,
             (forall i y, nodes !! i = Some y -> KnowledgeBase.uuid y = k -> i < j) ->
             exists n, depth m k n).
  { clear k. induction j as [j IH] using lt_wf_ind. intros k Hk.
    destruct (m !! k) as [e|] eqn:He; [|exists 0; by apply depth_O].
    destruct (Hm k e He) as [(i0 & Hi0)%list_elem_of_lookup Hu].
    destruct (IH i0 (Hk i0 _ Hi0 Hu) (KnowledgeBase.parent_uuid (toc e))) as [n Hn].
    - intros i y Hi Hy. by eapply (Hord i0 i (toc e) y).
    - exists (S n). by eapply depth_S. }
  apply (Hbound (length nodes)). intros i y Hi _. by eapply lookup_lt_Some.
Qed.

Lemma ordered_dirItem nodes m x :
  ordered nodes -> entries_of nodes m -> is_Some (dirItem m x).
Proof.
  intros Hord Hm.
  destruct (ordered_depth nodes m (KnowledgeBase.parent_uuid x) Hord Hm) as [n Hn].
  pose proof (depth_le_size _ _ _ Hn) as Hsz.
  destruct (depth_ancestorWalk (S (size m)) m x [] [] n Hn) as [[titles ids] Hw]; [lia|].
  unfold dirItem. rewrite Hw. done.
Qed.

Lemma ordered_resolveStep nodes m x :
  ordered nodes -> entries_of nodes m -> is_Some (resolveStep h m x).
Proof.
  intros Hord Hm. unfold resolveStep.
  destruct (ordered_dirItem nodes m x Hord Hm) as [e ->].
  repeat case_match; done.
Qed.

Lemma ordered_resolve nodes m items :
  ordered nodes -> entries_of nodes m -> items ⊆ nodes ->
  is_Some (resolve h m items).
Proof.
  intros Hord. revert m. induction items as [|x items IH]; intros m Hm Hsub; simpl; [done|].
  destruct (ordered_resolveStep nodes m x Hord Hm) as [m1 Hs]. rewrite Hs.
  apply IH.
  - eapply resolveStep_entries_of; [done| |done]. apply Hsub. by left.
  - intros y Hy. apply Hsub. by right.
Qed.

(** *** Two maps that agree on the keys a walk can reach *)

Section Agree.

Context (m1 m2 : gmap jsstring IProgressItem) (old : jsstring -> Prop).
Hypothesis agree : forall k, old k -> m1 !! k = m2 !! k.
Hypothesis closed : forall k e, m2 !! k = Some e -> old (KnowledgeBase.parent_uuid (toc e)).

Lemma agree_ancestorWalk fuel x titles ids :
  old (KnowledgeBase.parent_uuid x) ->
  ancestorWalk fuel m1 x titles ids = ancestorWalk fuel m2 x titles ids.
Proof using agree closed.
  revert x titles ids. induction fuel as [|fuel IH]; intros x titles ids Hx; simpl; [done|].
  rewrite (agree _ Hx).
  destruct (m2 !! KnowledgeBase.parent_uuid x) as [p|] eqn:Hp; [|done].
  apply IH. by eapply closed.
Qed.

Lemma agree_dirItem x e :
  old (KnowledgeBase.parent_uuid x) ->
  dirItem m2 x = Some e -> dirItem m1 x = Some e.
Proof using agree closed.
  unfold dirItem. intros Hx.
  destruct (ancestorWalk (S (size m2)) m2 x [] []) as [[titles ids]|] eqn:Hw; [|done].
  intros [= <-].
  rewrite <- (agree_ancestorWalk _ _ _ _ Hx) in Hw.
  by rewrite (ancestorWalk_enough _ _ _ _ _ _ Hw).
Qed.

Lemma agree_leafItem x :
  old (KnowledgeBase.parent_uuid x) -> leafItem m1 x = leafItem m2 x.
Proof using agree.
  intros Hx. unfold leafItem, preItem. by rewrite (agree _ Hx).
Qed.

End Agree.

(** *** Starting from a part of the final map *)

Lemma union_insert_taken (S m : gmap jsstring IProgressItem) k e :
  is_Some (S !! k) -> S ∪ <[k:=e]> m = S ∪ m.
Proof.
  intros [e' He']. apply map_eq. intros k'.
  rewrite !lookup_union. destruct (decide (k' = k)) as [->|Hne].
  - rewrite He'. by rewrite !union_Some_l.
  - by rewrite lookup_insert_ne.
Qed.

Lemma resolve_from_part S l1 l2 U1 U :
  ordered (l1 ++ l2) ->
  resolve h ∅ l1 = Some U1 ->
  resolve h U1 l2 = Some U ->
  S ⊆ U ->
  resolve h (S ∪ U1) l2 = Some U.
Proof.
  revert l1 U1. induction l2 as [|x l2 IH]; intros l1 U1 Hord H1 H2 HS.
  - simpl in *. injection H2 as ->. f_equal. by apply map_subseteq_union.
  - simpl in H2. destruct (resolveStep h U1 x) as [U1'|] eqn:Hstep; [|done].
    assert (HU1 : U1 ⊆ U).
    { etrans; [by eapply resolveStep_subseteq|by eapply resolve_subseteq]. }
    assert (Hent : entries_of l1 U1).
    { eapply (resolve_entries_of h l1 ∅ l1); [|done|done]. intros k e. by rewrite lookup_empty. }
    pose (old := fun k : jsstring => k ∉ KnowledgeBase.uuid <$> (x :: l2)).
    assert (Hagree : forall k, old k -> (S ∪ U1) !! k = U1 !! k).
    { intros k Hk. rewrite lookup_union.
      destruct (U1 !! k) as [e|] eqn:Hk1.
      - destruct (S !! k) as [e'|] eqn:HkS; [|done].
        pose proof (lookup_weaken _ _ _ _ HkS HS) as A1.
        pose proof (lookup_weaken _ _ _ _ Hk1 HU1) as A2.
        assert (e' = e) as -> by congruence. done.
      - destruct (S !! k) as [e'|] eqn:HkS; [|done]. exfalso. apply Hk.
        apply (resolve_new_key h U1 (x :: l2) U).
        + simpl. by rewrite Hstep.
        + done.
        + exists e'. by eapply lookup_weaken.
    }
    assert (Hclosed : forall k e, U1 !! k = Some e -> old (KnowledgeBase.parent_uuid (toc e))).
    { intros k e He. apply (ordered_app_l l1 (x :: l2)); [done|]. by apply (Hent k e). }
    assert (Hx : old (KnowledgeBase.parent_uuid x)) by by eapply ordered_app_head.
    assert (Hnext : resolveStep h (S ∪ U1) x = Some (S ∪ U1')).
    { revert Hstep. unfold resolveStep.
      destruct (KnowledgeBase.type x) as [type_|]; [|by intros [= <-]].
      destruct (U1 !! KnowledgeBase.uuid x) as [e1|] eqn:Hu1.
      { intros [= <-].
        destruct ((S ∪ U1) !! KnowledgeBase.uuid x) eqn:E; [done|].
        apply lookup_union_None in E as [_ E]. congruence. }
      destruct (S !! KnowledgeBase.uuid x) as [e'|] eqn:HuS.
      { rewrite (lookup_union_Some_l S U1 _ e' HuS). intros Hstep. f_equal.
        assert (U1' = U1 \/ exists e, U1' = <[KnowledgeBase.uuid x := e]> U1) as [->|[e ->]].
        { revert Hstep. repeat case_match; intros [= <-]; eauto. }
        - done.
        - symmetry. by apply union_insert_taken. }
      assert ((S ∪ U1) !! KnowledgeBase.uuid x = None) as ->.
      { apply lookup_union_None. done. }
      destruct (isDirectory h type_ x).
      - destruct (dirItem U1 x) as [e|] eqn:He; [|done]. intros [= <-].
        rewrite (agree_dirItem (S ∪ U1) U1 old Hagree Hclosed x e Hx He).
        f_equal. by apply insert_union_r.
      - destruct (KnowledgeBase.url x); intros [= <-]; [done|].
        rewrite (agree_leafItem (S ∪ U1) U1 old Hagree x Hx).
        f_equal. by apply insert_union_r. }
    simpl. rewrite Hnext.
    apply (IH (l1 ++ [x])); [by rewrite <- app_assoc| |done|done].
    rewrite resolve_app, H1. simpl. by rewrite Hstep.
Qed.

(** Over an ordered list, the pass that starts from any part of the final
    map ends with the final map. *)
Lemma resolve_resume S nodes U :
  ordered nodes -> resolve h ∅ nodes = Some U -> S ⊆ U ->
  resolve h S nodes = Some U.
Proof.
  intros Hord HU HS.
  rewrite <- (right_id_L ∅ (∪) S).
  by apply (resolve_from_part S [] nodes ∅ U).
Qed.

End Ordered.

(** ** Runs over the progress store of the specification *)

Section Records.

Context (h : Host) (w : World).
Context (bookId : Z) (bookPath articleUrlPrefix : jsstring).

Lemma recorded_insert st k e (records : list IProgressItem) m :
  recorded st -> uuidMap st !! k = None ->
  m = <[k:=e]> (uuidMap st) ->
  (forall r, r ∈ records -> r ∈ progressInfo (progressBar st) \/ (r = e /\ KnowledgeBase.uuid (toc e) = k)) ->
  forall r, r ∈ records -> m !! KnowledgeBase.uuid (toc r) = Some r.
Proof.
  intros Hrec Hk -> Hsub r [Hr|[-> <-]]%Hsub.
  - pose proof (Hrec r Hr) as Hl.
    rewrite lookup_insert_ne; [done|]. intros ->. congruence.
  - apply lookup_insert_eq.
Qed.

Lemma loopBody_recorded x st st' :
  recorded st ->
  loopBody h specProgressBar w bookId bookPath articleUrlPrefix x st = Normal st' ->
  recorded st'.
Proof.
  intros Hrec. loopBody_cases x st;
    intros r Hr; cbn [uuidMap progressBar] in *;
    (eapply (recorded_insert st); [done..| |exact Hr]);
    cbn [updateProgress specProgressBar spec_updateProgress progressInfo].
  - apply dirItem_Some in He as (chain & _ & He).
    intros r' [?|Hs%list_elem_of_singleton]%elem_of_app; [by left|right; subst r'].
    split; [done|]. by rewrite He.
  - intros r' [?|Hs%list_elem_of_singleton]%elem_of_app; [by left|right; subst r'].
    split; [done|]. unfold leafItem. by destruct (preItem _ _) as [[? ?] ?].
  - intros r' ?. by left.
Qed.

Lemma loop_recorded items st st' :
  recorded st ->
  loop h specProgressBar w bookId bookPath articleUrlPrefix items st = Normal st' ->
  recorded st'.
Proof.
  apply (loop_invariant h specProgressBar w bookId bookPath articleUrlPrefix recorded).
  intros x s s' _. apply loopBody_recorded.
Qed.

End Records.

Lemma seed_subseteq (records : list IProgressItem) (m : gmap jsstring IProgressItem) :
  (forall r, r ∈ records -> m !! KnowledgeBase.uuid (toc r) = Some r) ->
  seed records ⊆ m.
Proof.
  unfold seed. intros Hm.
  assert (Hacc : forall acc : gmap jsstring IProgressItem, acc ⊆ m ->
             foldl (fun m0 item => <[KnowledgeBase.uuid (toc item) := item]> m0) acc records ⊆ m).
  { induction records as [|r records IH]; intros acc Hacc; simpl; [done|].
    apply IH.
    - intros r' Hr'. apply Hm. by right.
    - apply insert_subseteq_l; [|done]. apply Hm. by left. }
  apply Hacc, map_empty_subseteq.
Qed.

(** When every directory can be made, the loop returns as soon as every
    ancestor walk ends. *)
Lemma loop_Normal h pbm w bookId bookPath articleUrlPrefix items st m' :
  (forall now dir, mkdir w now dir = None) ->
  resolve h (uuidMap st) items = Some m' ->
  exists st', loop h pbm w bookId bookPath articleUrlPrefix items st = Normal st'
    /\ uuidMap st' = m'.
Proof.
  intros Hmk. revert st. induction items as [|x items IH]; intros st; simpl.
  - intros [= <-]. by exists st.
  - destruct (resolveStep h (uuidMap st) x) as [m1|] eqn:Hs; [|done]. intros Hr.
    assert (exists st1, loopBody h pbm w bookId bookPath articleUrlPrefix x st = Normal st1
                        /\ uuidMap st1 = m1) as (st1 & -> & <-).
    { revert Hs. unfold resolveStep, loopBody.
      destruct (KnowledgeBase.type x) as [type_|]; [|intros [= <-]; by exists st].
      destruct (uuidMap st !! KnowledgeBase.uuid x); [intros [= <-]; by exists st|].
      destruct (isDirectory h type_ x).
      - unfold directory. destruct (dirItem (uuidMap st) x) as [e|]; [|done].
        rewrite Hmk. intros [= <-]. by eexists.
      - destruct (KnowledgeBase.url x); intros [= <-]; [by exists st|].
        eexists. split; [done|]. apply uuidMap_article. }
    by apply IH.
Qed.

Lemma main_download h pbm w url options info n nodes :
  (getKnowledgeBaseInfo h w 0 url).2 = Resolved info ->
  bookId info = Some n -> n <> 0%Z ->
  tocList info = Some nodes -> nodes <> [] ->
  main h pbm w url options = download h pbm w url options info n nodes [axios_get url].
Proof.
  intros Hinfo Hid Hn Htoc Hne. unfold main.
  destruct (getKnowledgeBaseInfo h w 0 url) as [events0 r] eqn:Hget.
  pose proof (getKnowledgeBaseInfo_events h w 0 url) as Hev. rewrite Hget in Hev.
  simpl in Hinfo, Hev. subst r events0.
  rewrite Hid, Htoc. destruct n; [done| |]; by destruct nodes.
Qed.

(** The run that starts from the records [progress_json w], when every
    directory can be made and the pass from the seeded map ends with the
    map [U]: it returns at once when the records are complete, and with
    the map [U] otherwise. *)
Lemma download_resolves h w url options info n nodes events U :
  (forall now dir, mkdir w now dir = None) ->
  seed (progress_json w) ⊆ U ->
  (forall S, S ⊆ U -> resolve h S nodes = Some U) ->
  (length (progress_json w) = length nodes
   /\ exists events',
        download h specProgressBar w url options info n nodes events
        = Normal (AlreadyComplete events'))
  \/ (length (progress_json w) <> length nodes
      /\ exists st,
           download h specProgressBar w url options info n nodes events = Normal (Ran st)
           /\ uuidMap st = U).
Proof.
  intros Hmk Hseed Hres. unfold download. rewrite Hmk.
  cbn [init specProgressBar spec_init curr isDownloadInterrupted progressInfo].
  destruct (decide (length (progress_json w) = length nodes)) as [Hc|Hc].
  - left. split; [done|]. by eexists.
  - right. split; [done|].
    match goal with
    | |- context [loop ?a ?b ?c ?d ?e ?f ?g ?st0] =>
        destruct (loop_Normal a b c d e f g st0 U Hmk) as (st & Hloop & HU)
    end.
    { cbn [uuidMap]. apply Hres. destruct (_ && _); [done|apply map_empty_subseteq]. }
    rewrite Hloop. eexists. split; [done|]. done.
Qed.

Lemma recorded_freshState pb events : recorded (freshState (spec_init [] pb) events).
Proof. intros e. cbn. by intros ?%elem_of_nil. Qed.

Lemma download_Ran h w url options info n nodes events st :
  download h specProgressBar w url options info n nodes events = Normal (Ran st) ->
  exists S, (S = seed (progress_json w) \/ S = ∅)
    /\ resolve h S nodes = Some (uuidMap st).
Proof.
  unfold download. destruct (mkdir w _ _); [done|].
  cbn [init specProgressBar spec_init curr isDownloadInterrupted progressInfo].
  destruct (decide _); [done|].
  destruct (loop _ _ _ _ _ _ _ _) as [st'| |] eqn:Hloop; [|done..].
  intros [= <-]. apply loop_resolve in Hloop. cbn [uuidMap] in Hloop.
  eexists. split; [|exact Hloop]. destruct (_ && _); auto.
Qed.


(** The scenario lists [A] before its child [B]. *)
Lemma ordered_scenario : ordered [nodeA; nodeB].
Proof.
  intros i j x y Hi Hj Hu.
  destruct i as [|[|i]]; simpl in Hi; [| |done]; injection Hi as <-;
    (destruct j as [|[|j]]; simpl in Hj; [| |done]; injection Hj as <-);
    first [lia | discriminate Hu].
Qed.



(** ** Failed downloads *)

Section Failures.

Context (h : Host).
Implicit Types (m : gmap jsstring IProgressItem) (x : KnowledgeBase.Toc).

Lemma resolveStep_classified m x m' :
  resolveStep h m x = Some m' -> classified h x ->
  is_Some (m' !! KnowledgeBase.uuid x).
Proof.
  intros Hs (type_ & Htype & Hc). revert Hs. unfold resolveStep. rewrite Htype.
  destruct (m !! KnowledgeBase.uuid x) as [e|] eqn:Hx.
  { intros [= <-]. by rewrite Hx. }
  destruct (isDirectory h type_ x).
  - destruct (dirItem m x); [|done]. intros [= <-]. rewrite lookup_insert_eq. done.
  - destruct Hc as [?|Hurl]; [done|].
    destruct (KnowledgeBase.url x); [done|]. intros [= <-]. rewrite lookup_insert_eq. done.
Qed.

Lemma resolveStep_new_key m x m' k :
  resolveStep h m x = Some m' -> m !! k = None -> is_Some (m' !! k) ->
  classified h x /\ KnowledgeBase.uuid x = k.
Proof.
  unfold resolveStep, classified.
  destruct (KnowledgeBase.type x) as [type_|]; [|intros [= <-] ? [? ?]; congruence].
  destruct (m !! KnowledgeBase.uuid x) eqn:Hx; [intros [= <-] ? [? ?]; congruence|].
  destruct (isDirectory h type_ x) eqn:Hd.
  - destruct (dirItem m x); [|done]. intros [= <-] Hk [e He].
    destruct (decide (KnowledgeBase.uuid x = k)) as [<-|Hne].
    + split; [|done]. exists type_. auto.
    + rewrite lookup_insert_ne in He by done. congruence.
  - destruct (KnowledgeBase.url x) eqn:Hurl; intros [= <-] Hk [e He]; [congruence|].
    destruct (decide (KnowledgeBase.uuid x = k)) as [<-|Hne].
    + split; [|done]. exists type_. split; [done|]. by right.
    + rewrite lookup_insert_ne in He by done. congruence.
Qed.

(** A pass that leaves a key free has met no classified node of that
    uuid, and the other way round. *)
Lemma resolve_lookup_None m items m' k :
  resolve h m items = Some m' -> m' !! k = None ->
  forall y, y ∈ items -> classified h y -> KnowledgeBase.uuid y <> k.
Proof.
  revert m. induction items as [|x items IH]; intros m; simpl.
  - intros _ _ y Hy. by apply elem_of_nil in Hy.
  - destruct (resolveStep h m x) as [m1|] eqn:Hs; [|done]. intros Hr Hk y Hy Hc.
    apply elem_of_cons in Hy as [->|Hy]; [|by eapply IH].
    destruct (resolveStep_classified _ _ _ Hs Hc) as [e He]. intros <-.
    pose proof (lookup_weaken _ _ _ _ He (resolve_subseteq h _ _ _ Hr)). congruence.
Qed.

Lemma resolve_keeps_None m items m' k :
  resolve h m items = Some m' -> m !! k = None ->
  (forall y, y ∈ items -> classified h y -> KnowledgeBase.uuid y <> k) ->
  m' !! k = None.
Proof.
  revert m. induction items as [|x items IH]; intros m; simpl.
  - by intros [= <-].
  - destruct (resolveStep h m x) as [m1|] eqn:Hs; [|done]. intros Hr Hk Hno.
    apply (IH m1); [done| |].
    + destruct (m1 !! k) as [e|] eqn:He; [|done].
      destruct (resolveStep_new_key _ _ _ _ Hs Hk) as [Hc Hu]; [by exists e|].
      exfalso. apply (Hno x); [by left|done..].
    + intros y Hy. apply Hno. by right.
Qed.

Context (w : World) (bookId : Z) (bookPath articleUrlPrefix : jsstring).

Lemma loopBody_unrecorded x st st' k :
  is_Some (uuidMap st !! k) ->
  (forall r, r ∈ progressInfo (progressBar st) -> KnowledgeBase.uuid (toc r) <> k) ->
  loopBody h specProgressBar w bookId bookPath articleUrlPrefix x st = Normal st' ->
  forall r, r ∈ progressInfo (progressBar st') -> KnowledgeBase.uuid (toc r) <> k.
Proof.
  intros [e0 Hk] Hno. loopBody_cases x st;
    cbn [progressBar updateProgress specProgressBar spec_updateProgress progressInfo];
    [| |done];
    (intros r [?|Hs%list_elem_of_singleton]%elem_of_app; [by apply Hno|]); subst r.
  - apply dirItem_Some in He as (chain & _ & ->). cbn [toc]. congruence.
  - unfold leafItem. destruct (preItem _ _) as [[? ?] ?]. cbn [toc]. congruence.
Qed.

Lemma loopBody_errArticleInfo pbm x st st' e0 :
  loopBody h pbm w bookId bookPath articleUrlPrefix x st = Normal st' ->
  e0 ∈ errArticleInfo st -> e0 ∈ errArticleInfo st'.
Proof.
  loopBody_cases x st; [done..|].
  cbn [errArticleInfo]. intros He0. apply elem_of_app. by left.
Qed.

Lemma loopBody_errArticleCount pbm x st st' :
  loopBody h pbm w bookId bookPath articleUrlPrefix x st = Normal st' ->
  errArticleCount st = length (errArticleInfo st) ->
  errArticleCount st' = length (errArticleInfo st').
Proof.
  loopBody_cases x st; [done..|].
  cbn [errArticleInfo errArticleCount]. intros ->. rewrite length_app. simpl. lia.
Qed.

Lemma loop_errArticleCount pbm items st st' :
  loop h pbm w bookId bookPath articleUrlPrefix items st = Normal st' ->
  errArticleCount st = length (errArticleInfo st) ->
  errArticleCount st' = length (errArticleInfo st').
Proof.
  intros Hloop Hst.
  apply (loop_invariant h pbm w bookId bookPath articleUrlPrefix
           (fun s => errArticleCount s = length (errArticleInfo s)) items st st');
    [|done..].
  intros x s s' _ Hs Hbody. by eapply loopBody_errArticleCount.
Qed.

Lemma loop_unrecorded items st st' k :
  is_Some (uuidMap st !! k) ->
  (forall r, r ∈ progressInfo (progressBar st) -> KnowledgeBase.uuid (toc r) <> k) ->
  loop h specProgressBar w bookId bookPath articleUrlPrefix items st = Normal st' ->
  forall r, r ∈ progressInfo (progressBar st') -> KnowledgeBase.uuid (toc r) <> k.
Proof.
  intros Hk Hno Hloop.
  refine (proj2 (loop_invariant h specProgressBar w bookId bookPath articleUrlPrefix
                   (fun s => is_Some (uuidMap s !! k)
                             /\ forall r, r ∈ progressInfo (progressBar s) ->
                                  KnowledgeBase.uuid (toc r) <> k) items st st' _ _ Hloop));
    [|done].
  intros x s s' _ [[e0 He0] Hs] Hbody. split.
  - exists e0. eapply lookup_weaken; [exact He0|].
    eapply resolveStep_subseteq. by eapply loopBody_resolveStep.
  - eapply loopBody_unrecorded; [by exists e0|exact Hs|exact Hbody].
Qed.

Lemma loop_errArticleInfo pbm items st st' e0 :
  loop h pbm w bookId bookPath articleUrlPrefix items st = Normal st' ->
  e0 ∈ errArticleInfo st -> e0 ∈ errArticleInfo st'.
Proof.
  intros Hloop Hst.
  apply (loop_invariant h pbm w bookId bookPath articleUrlPrefix
           (fun s => e0 ∈ errArticleInfo s) items st st');
    [|done..].
  intros x s s' _ Hs Hbody. by eapply loopBody_errArticleInfo.
Qed.

End Failures.

Lemma seed_lookup_None (records : list IProgressItem) k :
  (forall r, r ∈ records -> KnowledgeBase.uuid (toc r) <> k) ->
  seed records !! k = None.
Proof.
  unfold seed. intros Hno.
  assert (Hacc : forall acc : gmap jsstring IProgressItem, acc !! k = None ->
             foldl (fun m0 item => <[KnowledgeBase.uuid (toc item) := item]> m0) acc records !! k
             = None).
  { induction records as [|r records IH]; intros acc Hacc; simpl; [done|].
    apply IH.
    - intros r' Hr'. apply Hno. by right.
    - rewrite lookup_insert_ne; [done|]. apply Hno. by left. }
  apply Hacc, lookup_empty.
Qed.

Section Retry.

Context (h : Host).
Implicit Types (m : gmap jsstring IProgressItem) (x : KnowledgeBase.Toc).

Lemma downloads_loopBody pbm w bookId bookPath articleUrlPrefix x st :
  downloads h (uuidMap st) x <->
  loopBody h pbm w bookId bookPath articleUrlPrefix x st
  = Normal (article pbm w bookId bookPath articleUrlPrefix x st).
Proof.
  assert (Hcount : forall st',
             totalArticleCount st' = totalArticleCount st ->
             Normal st' <> Normal (article pbm w bookId bookPath articleUrlPrefix x st)).
  { intros st' Hst' [= ->]. revert Hst'. unfold article.
    destruct (downloadArticle _ _ _) as [events [b|message]]; cbn [totalArticleCount]; lia. }
  unfold downloads, loopBody. split.
  - intros (type_ & -> & -> & -> & Hurl). by destruct (KnowledgeBase.url x).
  - destruct (KnowledgeBase.type x) as [type_|]; [|intros Heq; by apply Hcount in Heq].
    destruct (uuidMap st !! KnowledgeBase.uuid x); [intros Heq; by apply Hcount in Heq|].
    destruct (isDirectory h type_ x) eqn:Hd.
    + unfold directory. destruct (dirItem (uuidMap st) x); [|done].
      destruct (mkdir w _ _); [done|]. intros Heq. by apply Hcount in Heq.
    + destruct (KnowledgeBase.url x) eqn:Hurl; [intros Heq; by apply Hcount in Heq|].
      intros _. by exists type_.
Qed.

Lemma resolve_new_classified m items m' k :
  resolve h m items = Some m' -> m !! k = None -> is_Some (m' !! k) ->
  exists y, y ∈ items /\ classified h y /\ KnowledgeBase.uuid y = k.
Proof.
  revert m. induction items as [|x items IH]; intros m; simpl.
  - intros [= <-] Hk [e He]. congruence.
  - destruct (resolveStep h m x) as [m1|] eqn:Hs; [|done]. intros Hr Hk Hk'.
    destruct (m1 !! k) as [e|] eqn:Hk1.
    + destruct (resolveStep_new_key h _ _ _ _ Hs Hk) as [Hc Hu]; [by exists e|].
      exists x. split; [by left|done].
    + destruct (IH m1 Hr Hk1 Hk') as (y & Hy & Hc & Hu).
      exists y. split; [by right|done].
Qed.

Context (w : World) (bookId : Z) (bookPath articleUrlPrefix : jsstring).

Lemma loop_progressInfo items st st' r :
  loop h specProgressBar w bookId bookPath articleUrlPrefix items st = Normal st' ->
  r ∈ progressInfo (progressBar st) -> r ∈ progressInfo (progressBar st').
Proof.
  intros Hloop Hst.
  apply (loop_invariant h specProgressBar w bookId bookPath articleUrlPrefix
           (fun s => r ∈ progressInfo (progressBar s)) items st st'); [|done..].
  intros x s s' _ Hs. loopBody_cases x s;
    cbn [progressBar updateProgress specProgressBar spec_updateProgress progressInfo];
    [| |done]; apply elem_of_app; by left.
Qed.

End Retry.

Lemma seed_lookup_Some (records : list IProgressItem) r :
  r ∈ records -> is_Some (seed records !! KnowledgeBase.uuid (toc r)).
Proof.
  unfold seed. intros Hr.
  assert (Hacc : forall acc : gmap jsstring IProgressItem,
             is_Some (acc !! KnowledgeBase.uuid (toc r)) \/ r ∈ records ->
             is_Some (foldl (fun m0 item => <[KnowledgeBase.uuid (toc item) := item]> m0)
                        acc records !! KnowledgeBase.uuid (toc r))).
  { clear Hr. induction records as [|r0 records IH]; intros acc; simpl.
    - intros [?|Hnil]; [done|]. by apply elem_of_nil in Hnil.
    - intros [Hacc|[->|Hr]%elem_of_cons]; apply IH.
      + left. rewrite lookup_insert. case_decide; [done|exact Hacc].
      + left. by rewrite lookup_insert_eq.
      + by right. }
  apply Hacc. by right.
Qed.




(** * Further properties of the code *)

(** ** The sanitizer *)

Lemma length_replace_class_g_single cls u s :
  length (replace_class_g cls [u] s) = length s.
Proof. rewrite replace_class_g_single. apply length_fmap. Qed.

Lemma replace_class_first_length cls s :
  length (replace_class_first cls [] s)
  = length s - (if existsb cls s then 1 else 0).
Proof.
  induction s as [|c s IH]; [done|]. cbn [replace_class_first existsb].
  destruct (cls c); cbn [orb app length]; [lia|].
  rewrite IH. destruct (existsb cls s) eqn:Hex; [|lia].
  destruct s; [done|]. simpl. lia.
Qed.

(** After the first replacement the whitespace that is left is the blanks
    of the title. *)
Lemma existsb_replaced title :
  existsb isWhiteSpace (replace_class_g dirNameReg underscore title) = existsb blank title.
Proof.
  unfold underscore, blank. induction title as [|c title IH]; [done|].
  cbn [replace_class_g existsb]. destruct (dirNameReg c) eqn:Hc; cbn [app existsb].
  - rewrite IH, andb_false_r. reflexivity.
  - rewrite IH, andb_true_r. reflexivity.
Qed.

(** X1.  The sanitized title is one code unit shorter than the title when the
    title has a blank, and as long as the title otherwise: LF and CR are
    whitespace, but they have become underscores before the whitespace is
    looked for. *)
Theorem sanitize_length (title : jsstring) :
  length (sanitize title) = length title - (if existsb blank title then 1 else 0).
Proof.
  unfold sanitize. rewrite replace_class_first_length, existsb_replaced.
  unfold underscore. by rewrite length_replace_class_g_single.
Qed.

(** X2.  The sanitized title is empty, and the path gets an empty segment,
    only for the empty title and for a title that is one blank. *)
Theorem sanitize_empty (title : jsstring) :
  sanitize title = [] <-> title = [] \/ exists c, title = [c] /\ blank c = true.
Proof.
  split.
  - intros Hs.
    assert (Hlen : length (sanitize title)
                   = length title - (if existsb blank title then 1 else 0)).
    { unfold sanitize. rewrite replace_class_first_length, existsb_replaced.
      unfold underscore. by rewrite length_replace_class_g_single. }
    rewrite Hs in Hlen.
    destruct title as [|c [|c' title]]; [by left| |].
    + right. exists c. split; [done|]. cbn [existsb] in Hlen.
      rewrite orb_false_r in Hlen. destruct (blank c); [done|]. simpl in Hlen. lia.
    + exfalso. simpl in Hlen. destruct (_ || _); lia.
  - intros [->|(c & -> & Hc)]; [done|].
    unfold sanitize, underscore, blank in *. cbn [replace_class_g].
    apply andb_true_iff in Hc as [Hw Hd]. apply negb_true_iff in Hd.
    rewrite Hd. cbn [replace_class_first]. by rewrite Hw.
Qed.

(** ** Invariants of the entries *)

Lemma sanitize_slashless title : slashless (sanitize title).
Proof.
  unfold slashless, sanitize, underscore. intros Hin.
  apply replace_class_first_subseteq in Hin.
  rewrite replace_class_g_single in Hin.
  apply list_elem_of_fmap in Hin as (d & Hd & _).
  destruct (dirNameReg d) eqn:Hc; [done|]. by subst d.
Qed.

Lemma slashless_cut (x y a b : jsstring) :
  slashless x -> slashless y -> x ++ 47%N :: a = y ++ 47%N :: b -> x = y /\ a = b.
Proof.
  unfold slashless. revert y. induction x as [|c x IH]; intros [|d y] Hx Hy; simpl.
  - by intros [= ->].
  - intros [= <- _]. exfalso. apply Hy. by left.
  - intros [= -> _]. exfalso. apply Hx. by left.
  - intros [= -> Heq]. destruct (IH y) as [-> ->]; [| |done|done].
    + intros ?. apply Hx. by right.
    + intros ?. apply Hy. by right.
Qed.

Lemma join_slash_cons x (l : list jsstring) :
  l <> [] -> join (js "/") (x :: l) = x ++ 47%N :: join (js "/") l.
Proof. by destruct l. Qed.

Lemma join_slashless_inj (l1 l2 : list jsstring) :
  l1 <> [] -> l2 <> [] -> Forall slashless l1 -> Forall slashless l2 ->
  join (js "/") l1 = join (js "/") l2 -> l1 = l2.
Proof.
  revert l2. induction l1 as [|x xs IH]; [done|]. intros [|y ys]; [done|].
  intros _ _ [Hx Hxs]%Forall_cons [Hy Hys]%Forall_cons.
  destruct xs as [|x' xs], ys as [|y' ys].
  - simpl. by intros ->.
  - rewrite (join_slash_cons y) by done. cbn [join]. intros ->.
    exfalso. apply Hx. apply elem_of_app. right. by left.
  - rewrite (join_slash_cons x) by done. cbn [join]. intros <-.
    exfalso. apply Hy. apply elem_of_app. right. by left.
  - rewrite (join_slash_cons x), (join_slash_cons y) by done.
    intros [-> Hrest]%slashless_cut; [|done..].
    f_equal. by apply IH.
Qed.

Section Entries.

Context (h : Host).
Implicit Types (m : gmap jsstring IProgressItem) (x : KnowledgeBase.Toc).

(** A property of entries that the two object literals establish is kept
    by a pass. *)
Lemma resolve_entries (Q : IProgressItem -> Prop) :
  (forall m x e, (forall k e0, m !! k = Some e0 -> Q e0) -> dirItem m x = Some e -> Q e) ->
  (forall m x, (forall k e0, m !! k = Some e0 -> Q e0) -> Q (leafItem m x)) ->
  forall items m m',
    (forall k e, m !! k = Some e -> Q e) ->
    resolve h m items = Some m' ->
    forall k e, m' !! k = Some e -> Q e.
Proof.
  intros Hdir Hleaf. induction items as [|x items IH]; intros m m' Hm; simpl.
  { by intros [= <-]. }
  destruct (resolveStep h m x) as [m1|] eqn:Hs; [|done].
  apply IH. revert Hs. unfold resolveStep.
  destruct (KnowledgeBase.type x) as [type_|]; [|by intros [= <-]].
  destruct (m !! KnowledgeBase.uuid x); [by intros [= <-]|].
  destruct (isDirectory h type_ x).
  - destruct (dirItem m x) as [e0|] eqn:He; [|done]. intros [= <-] k e.
    rewrite lookup_insert. case_decide; [|by apply Hm].
    intros [= <-]. by eapply Hdir.
  - destruct (KnowledgeBase.url x); intros [= <-]; [done|]. intros k e.
    rewrite lookup_insert. case_decide; [|by apply Hm].
    intros [= <-]. by apply Hleaf.
Qed.

Lemma dirItem_clean m x e : dirItem m x = Some e -> clean e.
Proof.
  intros (chain & _ & ->)%dirItem_Some. unfold clean. cbn [pathTitleList].
  apply Forall_fmap, Forall_forall. intros y _. apply sanitize_slashless.
Qed.

Lemma leafItem_clean m x :
  (forall k e0, m !! k = Some e0 -> clean e0) -> clean (leafItem m x).
Proof.
  intros Hm. unfold clean, leafItem, preItem.
  destruct (m !! KnowledgeBase.parent_uuid x) as [p|] eqn:Hp; cbn [pathTitleList];
    apply Forall_app; (split; [by (eapply Hm || constructor)|]);
    apply Forall_singleton; unfold slashless; intros [Hin|Hin]%elem_of_app;
    try (by apply sanitize_slashless in Hin); by vm_compute in Hin; inversion Hin as [|? ? ? Hin']; subst;
    repeat (inversion Hin' as [|? ? ? Hin'']; subst; clear Hin'; rename Hin'' into Hin').
Qed.

Lemma dirItem_shaped m x e : dirItem m x = Some e -> shaped e.
Proof.
  intros (chain & Ha & ->)%dirItem_Some. split; cbn [pathTitleList pathIdList toc].
  - by rewrite !length_fmap.
  - rewrite fmap_last, (ancestors_last _ _ _ Ha). done.
Qed.

Lemma leafItem_shaped m x :
  (forall k e0, m !! k = Some e0 -> shaped e0) -> shaped (leafItem m x).
Proof.
  intros Hm. unfold leafItem, preItem.
  destruct (m !! KnowledgeBase.parent_uuid x) as [p|] eqn:Hp;
    (split; cbn [pathTitleList pathIdList toc]; [|by rewrite last_snoc]).
  - destruct (Hm _ _ Hp) as [Hlen _]. rewrite !length_app. simpl. lia.
  - done.
Qed.

End Entries.

Section LoopFacts.

Context (h : Host) (pbm : ProgressBarMethods) (w : World).
Context (bookId : Z) (bookPath articleUrlPrefix : jsstring).

Abbreviation loop_ := (loop h pbm w bookId bookPath articleUrlPrefix).
Abbreviation loopBody_ := (loopBody h pbm w bookId bookPath articleUrlPrefix).

(** X3.  The path of an entry determines its segments: when the pass
    starts from entries whose path is the join of their titles and whose
    titles have no slash, two entries of the final map with the same
    path have the same [pathTitleList].  No sanitized title holds a
    slash, so the join can be cut back in one way only. *)
Theorem path_determines_segments (items : list KnowledgeBase.Toc) (st st' : LoopState)
    (k1 k2 : jsstring) (e1 e2 : IProgressItem) :
  (forall k e, uuidMap st !! k = Some e -> consistent e /\ clean e) ->
  loop_ items st = Normal st' ->
  uuidMap st' !! k1 = Some e1 ->
  uuidMap st' !! k2 = Some e2 ->
  path e1 = path e2 ->
  pathTitleList e1 = pathTitleList e2.
Proof.
  intros Hst Hloop H1 H2 Hpath.
  apply loop_resolve in Hloop.
  assert (Hall : forall k e, uuidMap st' !! k = Some e -> consistent e /\ clean e).
  { eapply (resolve_entries h (fun e => consistent e /\ clean e));
      [| |exact Hst|exact Hloop].
    - intros m x e _ He. split; [by eapply dirItem_consistent|by eapply dirItem_clean].
    - intros m x Hm. split; [apply leafItem_consistent|].
      apply leafItem_clean. intros k e0 He0. by destruct (Hm _ _ He0). }
  destruct (Hall _ _ H1) as ([Hc1 Hn1] & Hs1).
  destruct (Hall _ _ H2) as ([Hc2 Hn2] & Hs2).
  rewrite Hc1, Hc2 in Hpath.
  by apply join_slashless_inj.
Qed.

(** X4.  The entries keep their shape: when every entry of the map has
    as many titles as ids and its own uuid as the last id, so has every
    entry of the map the pass ends with. *)
Theorem entries_keep_shape (items : list KnowledgeBase.Toc) (st st' : LoopState) :
  (forall k e, uuidMap st !! k = Some e -> shaped e) ->
  loop_ items st = Normal st' ->
  forall k e, uuidMap st' !! k = Some e -> shaped e.
Proof.
  intros Hst Hloop. apply loop_resolve in Hloop.
  eapply (resolve_entries h shaped); [| |exact Hst|exact Hloop].
  - intros m x e _ He. by eapply dirItem_shaped.
  - intros m x Hm. by apply leafItem_shaped.
Qed.

(** X5.  The map only grows: no entry is removed or replaced by the
    pass, and every entry it adds is that of a node of the list, under
    the uuid of that node, the node being a directory or having a url. *)
Theorem map_grows_by_listed_nodes (items : list KnowledgeBase.Toc) (st st' : LoopState) :
  loop_ items st = Normal st' ->
  uuidMap st ⊆ uuidMap st'
  /\ forall k e, uuidMap st' !! k = Some e ->
       uuidMap st !! k = Some e
       \/ (uuidMap st !! k = None /\ toc e ∈ items
           /\ KnowledgeBase.uuid (toc e) = k /\ classified h (toc e)).
Proof.
  intros Hloop. apply loop_resolve in Hloop. split; [by eapply resolve_subseteq|].
  revert Hloop. generalize (uuidMap st) (uuidMap st'). clear st st'.
  induction items as [|x items IH]; intros m m'; simpl.
  { intros [= <-] k e He. by left. }
  destruct (resolveStep h m x) as [m1|] eqn:Hs; [|done].
  intros Hres k e He.
  destruct (IH _ _ Hres k e He) as [H1|(Hnone & Hin & Hk & Hc)].
  - destruct (m !! k) as [e0|] eqn:Hmk.
    + left. apply (resolveStep_subseteq h) in Hs.
      eapply lookup_weaken in Hmk; [|exact Hs]. congruence.
    + right. split; [done|].
      destruct (resolveStep_new_key h m x m1 k Hs Hmk) as [Hc Hk]; [by exists e|].
      destruct (resolveStep_cases h m x m1 Hs) as [->|(e0 & _ & Htoc & ->)]; [congruence|].
      rewrite <- Hk, lookup_insert_eq in H1. injection H1 as ->.
      rewrite Htoc. split; [by left|]. by split.
  - destruct (m !! k) as [e0|] eqn:Hmk.
    + apply (resolveStep_subseteq h) in Hs.
      eapply lookup_weaken in Hmk; [|exact Hs]. congruence.
    + right. split; [done|]. split; [by right|]. by split.
Qed.

(** X6.  The final map does not depend on the outside: a second pass over
    the same list from the same map, with another world, progress bar,
    book id, book path or url prefix, ends with the same map if it
    returns, and it returns when no [fs.mkdir] fails.  Whether a download
    fails does not change where the nodes are filed. *)
Theorem map_independent_of_world (pbm2 : ProgressBarMethods) (w2 : World)
    (bookId2 : Z) (bookPath2 articleUrlPrefix2 : jsstring)
    (items : list KnowledgeBase.Toc) (st1 st1' st2 : LoopState) :
  loop_ items st1 = Normal st1' ->
  uuidMap st1 = uuidMap st2 ->
  (forall st2',
      loop h pbm2 w2 bookId2 bookPath2 articleUrlPrefix2 items st2 = Normal st2' ->
      uuidMap st2' = uuidMap st1')
  /\ ((forall now dir, mkdir w2 now dir = None) ->
      exists st2',
        loop h pbm2 w2 bookId2 bookPath2 articleUrlPrefix2 items st2 = Normal st2').
Proof.
  intros Hloop Heq. apply loop_resolve in Hloop. rewrite Heq in Hloop. split.
  - intros st2' H2. apply loop_resolve in H2. congruence.
  - intros Hmk.
    destruct (loop_Normal h pbm2 w2 bookId2 bookPath2 articleUrlPrefix2 items st2 _ Hmk Hloop)
      as (st2' & H2 & _).
    by exists st2'.
Qed.

Lemma loop_Hung (items : list KnowledgeBase.Toc) (st : LoopState) events :
  loop_ items st = Hung events -> resolve h (uuidMap st) items = None.
Proof.
  revert st. induction items as [|x items IH]; intros st; simpl; [done|].
  destruct (loopBody_ x st) as [st1|message ev|ev] eqn:Hbody; [|done|].
  - rewrite (loopBody_resolveStep _ _ _ _ _ _ _ _ _ Hbody). apply IH.
  - intros _. revert Hbody. unfold loopBody, resolveStep.
    destruct (KnowledgeBase.type x) as [type_|]; [|done].
    destruct (uuidMap st !! KnowledgeBase.uuid x); [done|].
    destruct (isDirectory h type_ x).
    + unfold directory. destruct (dirItem (uuidMap st) x); [|done].
      by destruct (mkdir _ _ _).
    + by destruct (KnowledgeBase.url x).
Qed.

(** X7.  Over nodes listed parents first, from a map of entries of these
    nodes, the pass never hangs; and it returns when no [fs.mkdir]
    fails. *)
Theorem ordered_pass_ends (nodes items : list KnowledgeBase.Toc) (st : LoopState) :
  ordered nodes -> entries_of nodes (uuidMap st) -> items ⊆ nodes ->
  (forall events, loop_ items st <> Hung events)
  /\ ((forall now dir, mkdir w now dir = None) -> exists st', loop_ items st = Normal st').
Proof.
  intros Hord Hent Hsub.
  destruct (ordered_resolve h nodes (uuidMap st) items Hord Hent Hsub) as [m' Hres]. split.
  - intros events Hh. apply loop_Hung in Hh. congruence.
  - intros Hmk.
    destruct (loop_Normal h pbm w bookId bookPath articleUrlPrefix items st _ Hmk Hres)
      as (st' & H2 & _).
    by exists st'.
Qed.

(** X8.  When every node of the list that is a directory or has a url is
    in the map already, the pass returns the state as it was: nothing is
    requested, made, written or counted. *)
Theorem present_nodes_no_effect (items : list KnowledgeBase.Toc) (st : LoopState) :
  (forall x, x ∈ items -> classified h x -> is_Some (uuidMap st !! KnowledgeBase.uuid x)) ->
  loop_ items st = Normal st.
Proof.
  induction items as [|x items IH]; intros Hall; simpl; [done|].
  assert (loopBody_ x st = Normal st) as ->.
  { unfold loopBody.
    destruct (KnowledgeBase.type x) as [type_|] eqn:Htype; [|done].
    destruct (uuidMap st !! KnowledgeBase.uuid x) eqn:Hx; [done|].
    destruct (isDirectory h type_ x) eqn:Hd.
    - destruct (Hall x) as [e He]; [by left|exists type_; by split; [|left]|congruence].
    - destruct (KnowledgeBase.url x) eqn:Hurl; [done|].
      destruct (Hall x) as [e He]; [by left| |congruence].
      exists type_. split; [done|]. right. by rewrite Hurl. }
  apply IH. intros y Hy. apply Hall. by right.
Qed.

(** X9.  A node that names itself as its parent is entered like any
    other; the next directory under it never leaves the [while] loop of
    line 160, for the walk finds the node as its own parent again and
    again. *)
Theorem self_parent_hangs (a x : KnowledgeBase.Toc) (type_ : jsstring) (st st1 : LoopState) :
  classified h a ->
  KnowledgeBase.parent_uuid a = KnowledgeBase.uuid a ->
  uuidMap st !! KnowledgeBase.uuid a = None ->
  loopBody_ a st = Normal st1 ->
  KnowledgeBase.type x = Some type_ ->
  isDirectory h type_ x = true ->
  uuidMap st1 !! KnowledgeBase.uuid x = None ->
  KnowledgeBase.parent_uuid x = KnowledgeBase.uuid a ->
  loopBody_ x st1 = Hung (trace st1).
Proof.
  intros Hc Hself Hfree Hbody Htype Hd Hx Hpar.
  apply loopBody_resolveStep in Hbody.
  assert (exists e, uuidMap st1 !! KnowledgeBase.uuid a = Some e /\ toc e = a) as (e & He & Htoc).
  { destruct (resolveStep_classified h _ _ _ Hbody Hc) as [e He].
    exists e. split; [done|].
    destruct (resolveStep_cases h _ _ _ Hbody) as [Hm|(e0 & _ & Htoc & Hm)];
      rewrite Hm in He; [congruence|].
    rewrite lookup_insert_eq in He. by injection He as <-. }
  assert (Hnodepth : forall n, ~ depth (uuidMap st1) (KnowledgeBase.uuid a) n).
  { induction n as [|n IH]; intros Hdep;
      inversion Hdep as [k Hk|k p n' Hp Hdep']; [congruence|].
    assert (p = e) as -> by congruence.
    rewrite Htoc, Hself in Hdep'. done. }
  unfold loopBody, directory. rewrite Htype, Hx, Hd.
  destruct (dirItem (uuidMap st1) x) as [e1|] eqn:Hdir; [|done].
  exfalso. unfold dirItem in Hdir.
  destruct (ancestorWalk _ _ _ _ _) as [[titles ids]|] eqn:Hwalk; [|done].
  apply ancestorWalk_depth in Hwalk as (n & Hdep & _).
  rewrite Hpar in Hdep. by eapply Hnodepth.
Qed.

End LoopFacts.

(** ** Counters and events *)

Lemma count_app kind (a b : list Event) : count kind (a ++ b) = count kind a + count kind b.
Proof. unfold count. by rewrite List.filter_app, length_app. Qed.

Lemma downloadArticle_counts w now params :
  let events := (downloadArticle w now params).1 in
  count is_axios_get events = 1
  /\ count is_bar_interrupt events = 0
  /\ count is_failed_line events = 0
  /\ count is_summary events = 0.
Proof.
  unfold downloadArticle.
  destruct (fetch_sourcecode _ _ _); [|done].
  destruct (run_mdImg _ _ _ _ _); [done|].
  by destruct (writeFile _ _ _ _).
Qed.

Section Counters.

Context (h : Host) (pbm : ProgressBarMethods) (w : World).
Context (bookId : Z) (bookPath articleUrlPrefix : jsstring).

Abbreviation loop_ := (loop h pbm w bookId bookPath articleUrlPrefix).
Abbreviation loopBody_ := (loopBody h pbm w bookId bookPath articleUrlPrefix).

Lemma loop_counted items st st' : loop_ items st = Normal st' -> counted st st'.
Proof.
  intros Hloop.
  refine (loop_invariant h pbm w bookId bookPath articleUrlPrefix (counted st) _ _ _ _ _ Hloop).
  - intros x s s' _ (H1 & H2 & H3 & H4 & H5 & H6). unfold counted, loopBody.
    destruct (KnowledgeBase.type x) as [type_|]; [|by intros [= <-]].
    destruct (uuidMap s !! KnowledgeBase.uuid x); [by intros [= <-]|].
    destruct (isDirectory h type_ x).
    + unfold directory. destruct (dirItem (uuidMap s) x) as [e|]; [|done].
      destruct (mkdir _ _ _); [done|]. intros [= <-].
      cbn [trace totalArticleCount errArticleCount errArticleInfo].
      rewrite !count_app. cbn. repeat split; lia.
    + destruct (KnowledgeBase.url x); intros [= <-]; [done|].
      unfold article.
      pose proof (downloadArticle_counts w (length (trace s))
                    (articleParams bookId bookPath articleUrlPrefix (uuidMap s)
                       x)) as Hc.
      destruct (downloadArticle _ _ _) as [events [b|message]];
        cbn [fst] in Hc; destruct Hc as (C1 & C2 & C3 & C4);
        cbn [trace totalArticleCount errArticleCount errArticleInfo];
        rewrite !count_app, ?length_app, C1, C2, C3, C4; cbn; repeat split; lia.
  - unfold counted. repeat split; lia.
Qed.

End Counters.

Lemma count_failed_lines (items : list IProgressItem) :
  count is_failed_line (map (fun item => logger (LogFailed (path item))) items)
  = length items.
Proof. induction items as [|e items IH]; [done|]. unfold count in *. simpl. by rewrite IH. Qed.

Lemma count_other_lines kind (items : list IProgressItem) :
  (forall p, kind (logger (LogFailed p)) = false) ->
  count kind (map (fun item => logger (LogFailed (path item))) items) = 0.
Proof.
  intros Hk. induction items as [|e items IH]; [done|].
  unfold count in *. simpl. by rewrite Hk.
Qed.

(** A call of [main] that returns after the pass: the state in which the
    loop started and the state in which it ended. *)
Lemma main_Ran_inv h pbm w url options st :
  main h pbm w url options = Normal (Ran st) ->
  exists info n nodes st0 stL,
    (getKnowledgeBaseInfo h w 0 url).2 = Resolved info
    /\ bookId info = Some n /\ tocList info = Some nodes
    /\ trace st0 = [axios_get url; fs_mkdir (distDir options ++ js "/" ++ String_number n);
                    progressBar_init]
    /\ errArticleCount st0 = 0 /\ totalArticleCount st0 = 0 /\ errArticleInfo st0 = []
    /\ loop h pbm w n (distDir options ++ js "/" ++ String_number n)
         (prefix_of h url (bookSlug info)) nodes st0 = Normal stL
    /\ st = set_trace stL
              (trace stL ++ epilogue (distDir options ++ js "/" ++ String_number n)
                              (length nodes) (bookName info) (bookDesc info) stL).
Proof.
  unfold main.
  pose proof (getKnowledgeBaseInfo_events h w 0 url) as Hev.
  destruct (getKnowledgeBaseInfo h w 0 url) as [events [info|message]]; [|done].
  simpl in Hev. subst events.
  destruct (bookId info) as [n|] eqn:Hid; [|done].
  destruct (tocList info) as [nodes|] eqn:Htoc; [|by destruct n].
  assert (download h pbm w url options info n nodes [axios_get url] = Normal (Ran st) ->
          exists st0 stL,
            trace st0 = [axios_get url; fs_mkdir (distDir options ++ js "/" ++ String_number n);
                         progressBar_init]
            /\ errArticleCount st0 = 0 /\ totalArticleCount st0 = 0 /\ errArticleInfo st0 = []
            /\ loop h pbm w n (distDir options ++ js "/" ++ String_number n)
                 (prefix_of h url (bookSlug info)) nodes st0 = Normal stL
            /\ st = set_trace stL
                      (trace stL ++ epilogue (distDir options ++ js "/" ++ String_number n)
                                      (length nodes) (bookName info) (bookDesc info) stL))
    as Hdl.
  { unfold download. destruct (mkdir _ _ _); [done|].
    case_decide; [done|].
    match goal with |- context [loop _ _ _ _ _ _ _ ?s] => set (st0 := s) end.
    destruct (loop _ _ _ _ _ _ _ st0) as [stL| |] eqn:Hloop; [|done..].
    intros [= <-]. exists st0, stL. by repeat split. }
  intros Hmain.
  assert (download h pbm w url options info n nodes [axios_get url] = Normal (Ran st)) as Hd.
  { destruct n; [done| |]; by destruct nodes. }
  destruct (Hdl Hd) as (st0 & stL & H). by exists info, n, nodes, st0, stL.
Qed.

(** X10.  The counters and the report agree with what was done: in a run
    that returns after the pass, the requests are one for the page and
    one for each article counted in [totalArticleCount]; the interrupts
    of the bar, the entries of [errArticleInfo] and the lines of the
    failure report are as many as [errArticleCount], which is at most
    [totalArticleCount]; the summary is generated once. *)
Theorem report_matches_requests h pbm w url options st :
  main h pbm w url options = Normal (Ran st) ->
  count is_axios_get (trace st) = S (totalArticleCount st)
  /\ count is_bar_interrupt (trace st) = errArticleCount st
  /\ count is_failed_line (trace st) = errArticleCount st
  /\ length (errArticleInfo st) = errArticleCount st
  /\ errArticleCount st <= totalArticleCount st
  /\ count is_summary (trace st) = 1.
Proof.
  intros (info & n & nodes & st0 & stL & _ & _ & _ & Ht & He & Hn & Hi & Hloop & ->)%main_Ran_inv.
  apply loop_counted in Hloop as (H1 & H2 & H3 & H4 & H5 & H6).
  rewrite Ht, He, Hn, ?Hi in *. cbn in H1, H2, H3, H4, H5, H6.
  unfold set_trace, epilogue.
  cbn [trace totalArticleCount errArticleCount errArticleInfo].
  rewrite !count_app. rewrite H5, H6.
  repeat case_decide; rewrite ?count_app, ?count_failed_lines,
    ?count_other_lines by done; cbn.
  all: repeat split; lia.
Qed.

(** ** Directories and files *)

(** X11.  Every directory entry of the map has had its directory made:
    if there is an [fs.mkdir] event for the path of each directory entry
    at the start of the pass, there is one at its end. *)
Theorem directories_are_made h pbm w bookId bookPath articleUrlPrefix
    (items : list KnowledgeBase.Toc) (st st' : LoopState) :
  made h bookPath st ->
  loop h pbm w bookId bookPath articleUrlPrefix items st = Normal st' ->
  made h bookPath st'.
Proof.
  intros Hst Hloop.
  refine (loop_invariant h pbm w bookId bookPath articleUrlPrefix (made h bookPath)
            _ _ _ _ Hst Hloop).
  clear. intros x s s' _ Hs. unfold loopBody.
  destruct (KnowledgeBase.type x) as [type_|] eqn:Htype; [|by intros [= <-]].
  destruct (uuidMap s !! KnowledgeBase.uuid x) eqn:Hx; [by intros [= <-]|].
  destruct (isDirectory h type_ x) eqn:Hd.
  - unfold directory. destruct (dirItem (uuidMap s) x) as [e|] eqn:He; [|done].
    destruct (mkdir _ _ _); [done|]. intros [= <-] k e0 t0. cbn [uuidMap trace].
    rewrite lookup_insert. case_decide.
    + intros [= <-] _ _. apply elem_of_app. left. apply elem_of_app. right.
      destruct (dirItem_consistent _ _ _ He) as [-> _]. by left.
    + intros H0 Ht Hdir. apply elem_of_app. left. apply elem_of_app. left. by eapply Hs.
  - destruct (KnowledgeBase.url x) eqn:Hurl; intros [= <-]; [done|].
    intros k e0 t0. unfold article.
    destruct (downloadArticle _ _ _) as [events [b|message]]; cbn [uuidMap trace];
      rewrite lookup_insert; (case_decide;
      [ intros [= <-]; unfold leafItem; destruct (preItem _ _) as [[? ?] ?];
        cbn [toc]; rewrite Htype; intros [= <-]; congruence
      | intros H0 Ht Hdir; apply elem_of_app; left; by eapply Hs ]).
Qed.

(** X12.  The file of an article is written into the directory given to
    [mdImg.run]: with a parent entry whose path is the join of its
    titles, [savePath] is the path of the parent under the book path and
    [saveFilePath] is the file name under [savePath]; without a parent
    entry [savePath] is the book path with a trailing slash. *)
Theorem article_saved_in_parent_directory
    (bookId : Z) (bookPath articleUrlPrefix : jsstring)
    (m : gmap jsstring IProgressItem) (x : KnowledgeBase.Toc) :
  let params := articleParams bookId bookPath articleUrlPrefix m x in
  let fileName := sanitize (KnowledgeBase.title x) ++ js ".md" in
  (forall p, m !! KnowledgeBase.parent_uuid x = Some p -> consistent p ->
     Params.savePath params = bookPath ++ js "/" ++ path p
     /\ Params.saveFilePath params = Params.savePath params ++ js "/" ++ fileName)
  /\ (m !! KnowledgeBase.parent_uuid x = None ->
      Params.savePath params = bookPath ++ js "/"
      /\ Params.saveFilePath params = Params.savePath params ++ fileName).
Proof.
  unfold articleParams, leafItem, preItem. split.
  - intros p Hp [Hpath Hne]. rewrite Hp. cbn [Params.savePath Params.saveFilePath path].
    split; [done|]. rewrite join_snoc by done. rewrite <- Hpath.
    by rewrite <- !app_assoc.
  - intros Hp. rewrite Hp. cbn [Params.savePath Params.saveFilePath path].
    split; [done|]. simpl. by rewrite <- !app_assoc.
Qed.

(** ** The seeded map *)

Lemma seed_snoc (records : list IProgressItem) r :
  seed (records ++ [r]) = <[KnowledgeBase.uuid (toc r) := r]> (seed records).
Proof. unfold seed. by rewrite foldl_app. Qed.

(** X13.  The map seeded from the records (lines 137-142) holds, for each
    uuid, the last record of that uuid. *)
Theorem seed_last_record_wins (records : list IProgressItem) (k : jsstring) :
  seed records !! k = last (filter (fun r => KnowledgeBase.uuid (toc r) = k) records).
Proof.
  induction records as [|r records IH] using rev_ind; [done|].
  rewrite seed_snoc, filter_app, lookup_insert.
  rewrite filter_cons, filter_nil.
  repeat case_decide; try done; by rewrite ?last_snoc, ?app_nil_r.
Qed.

(** ** The page request and [main] *)


(** ** The article request *)

(** X15.  The messages of a rejected article request (lines 71-84).  With
    [P] the text [download article Error: ] followed by the api url: a
    rejected request gives [P], a space and the message of the
    rejection; what the [then] handler throws is caught by the [catch]
    handler and wrapped again, so a status other than 200 gives [P], a
    space, [P] and the status, and a 200 without source text gives [P],
    a space and [P]. *)
Theorem rejected_request_messages w now apiUrl :
  let P := js "download article Error: " ++ apiUrl in
  (forall m,
      get_doc w now apiUrl = AxiosError m ->
      fetch_sourcecode w now apiUrl = Rejected (P ++ js " " ++ m))
  /\ (forall status apiRes,
        get_doc w now apiUrl = AxiosResponse status apiRes -> status <> 200%Z ->
        fetch_sourcecode w now apiUrl
        = Rejected (P ++ js " " ++ P ++ js " http status " ++ String_number status))
  /\ (forall apiRes,
        get_doc w now apiUrl = AxiosResponse 200 apiRes ->
        fetch_sourcecode w now apiUrl = Rejected (P ++ js " " ++ P)
        \/ exists s,
             s <> []
             /\ apiRes = Some {| ArticleResponse.data :=
                                   Some {| ArticleResponse.sourcecode := s |} |}
             /\ fetch_sourcecode w now apiUrl = Resolved s).
Proof.
  unfold fetch_sourcecode. repeat split.
  - intros m ->. cbn [then_ catch_]. by rewrite <- !app_assoc.
  - intros status apiRes -> Hs. cbn [then_ catch_]. rewrite decide_False by done.
    cbn [catch_]. by rewrite <- !app_assoc.
  - intros apiRes ->. cbn [then_ catch_]. rewrite decide_True by done.
    destruct apiRes as [[[[[|c s]]|]]|]; cbn [catch_];
      try (left; by rewrite <- !app_assoc).
    right. by exists (c :: s).
Qed.

(** X16.  The effects of a call of [downloadArticle]: the request comes
    first and is the only request; a file is written at most once, it is
    [saveFilePath], and it is written exactly when the request and the
    image step have both succeeded. *)
Theorem download_effects w now params :
  let apiUrl := apiUrl_of (Params.bookId params) (Params.itemUrl params) in
  let imgDir := js "img/" ++ Params.uuid params in
  let events := (downloadArticle w now params).1 in
  head events = Some (axios_get apiUrl)
  /\ count is_axios_get events = 1
  /\ count is_fs_writeFile events <= 1
  /\ (count is_fs_writeFile events = 1 <->
      exists sourcecode mdData,
        fetch_sourcecode w now apiUrl = Resolved sourcecode
        /\ run_mdImg w (S now) sourcecode (Params.savePath params) imgDir = inr mdData)
  /\ (forall file data, fs_writeFile file data ∈ events -> file = Params.saveFilePath params).
Proof.
  unfold downloadArticle. cbv zeta.
  destruct (fetch_sourcecode _ _ _) as [sourcecode|message] eqn:Hf.
  - destruct (run_mdImg _ _ _ _ _) as [e|mdData] eqn:Hr.
    + split; [done|]. split; [done|]. split; [cbn; lia|]. split; [split|].
      * intros Hc. cbn in Hc. discriminate.
      * intros (s & md & [= <-] & Hr'). rewrite Hr in Hr'. discriminate.
      * intros file data Hin. cbn [fst] in Hin.
        repeat (apply elem_of_cons in Hin as [?|Hin]; [done|]).
        by apply elem_of_nil in Hin.
    + destruct (writeFile _ _ _ _); cbn [fst];
        (split; [done|]; split; [done|]; split; [cbn; lia|]; split; [split|];
         [ intros _; by exists sourcecode, mdData
         | intros _; reflexivity
         | intros file data Hin;
           apply elem_of_cons in Hin as [?|Hin]; [done|];
           apply elem_of_cons in Hin as [?|Hin]; [done|];
           apply elem_of_cons in Hin as [[= -> _]|Hin]; [done|];
           by apply elem_of_nil in Hin ]).
  - split; [done|]. split; [done|]. split; [cbn; lia|]. split; [split|].
    + intros Hc. cbn in Hc. discriminate.
    + intros (s & md & [=] & _).
    + intros file data Hin. cbn [fst] in Hin.
      apply elem_of_cons in Hin as [?|Hin]; [done|].
      by apply elem_of_nil in Hin.
Qed.

(** ** The walk that never ends *)

(** X17.  An iteration of the loop never returns exactly when the node is
    a directory that is not in the map and the lookups of [parent_uuid]
    never fail, which is when it has no ancestor chain; nothing has been
    done by then. *)
Theorem hang_iff_no_chain h pbm w bookId bookPath articleUrlPrefix
    (x : KnowledgeBase.Toc) (st : LoopState) (events : list Event) :
  loopBody h pbm w bookId bookPath articleUrlPrefix x st = Hung events <->
  events = trace st
  /\ exists type_,
       KnowledgeBase.type x = Some type_
       /\ uuidMap st !! KnowledgeBase.uuid x = None
       /\ isDirectory h type_ x = true
       /\ forall chain, ~ ancestors (uuidMap st) x chain.
Proof.
  unfold loopBody, directory. split.
  - destruct (KnowledgeBase.type x) as [type_|]; [|done].
    destruct (uuidMap st !! KnowledgeBase.uuid x); [done|].
    destruct (isDirectory h type_ x) eqn:Hd.
    + destruct (dirItem (uuidMap st) x) as [e|] eqn:He.
      * by destruct (mkdir _ _ _).
      * intros [= <-]. split; [done|]. exists type_. do 3 (split; [done|]).
        intros chain Hc.
        pose proof (dirItem_None _ _ He (length chain)) as Hw.
        by rewrite (ancestors_ancestorWalk _ _ _ _ [] [] Hc) in Hw.
    + by destruct (KnowledgeBase.url x).
  - intros (-> & type_ & -> & -> & -> & Hno).
    destruct (dirItem (uuidMap st) x) as [e|] eqn:He; [|done].
    apply dirItem_Some in He as (chain & Hc & _). by destruct (Hno chain).
Qed.

(** ** The regular expression of the page *)

Lemma greedy_group_longest s g g' post :
  greedy_group s = Some g ->
  g' <> [] -> Forall (fun c => isLineTerminator c = false) g' ->
  s = g' ++ knowledgeBaseReg_close ++ post ->
  length g' <= length g.
Proof.
  revert g g'. induction s as [|c s IH]; intros g g'; cbn [greedy_group]; [done|].
  destruct (isLineTerminator c); [done|].
  intros Hg Hne Hlt Hs. destruct g' as [|c' g']; [done|].
  injection Hs as <- Hs. apply Forall_cons in Hlt as [_ Hlt].
  destruct (greedy_group s) as [g0|] eqn:Hg0.
  - injection Hg as <-. destruct g' as [|c'' g'']; [simpl; lia|].
    simpl. apply le_n_S. by apply (IH g0 (c'' :: g'')).
  - destruct g' as [|c'' g'']; [destruct (startsWith _ s); by simplify_eq|].
    exfalso.
    destruct (greedy_group_complete (c'' :: g'') post) as [g1 Hg1]; [done|done|].
    assert (s = (c'' :: g'') ++ knowledgeBaseReg_close ++ post) as Hs' by exact Hs.
    rewrite <- Hs', Hg0 in Hg1. done.
Qed.

(** X18.  Group 1 of the match of [knowledgeBaseReg] (lines 34 and 43) is
    a data block of the page at some position, no data block stands at an
    earlier position, and no data block at that position is longer. *)
Theorem page_match_leftmost_longest (html g : jsstring) :
  match_knowledgeBaseReg html = Some g ->
  exists n,
    block_at (drop n html) g
    /\ (forall i g', i < n -> ~ block_at (drop i html) g')
    /\ (forall g', block_at (drop n html) g' -> length g' <= length g).
Proof.
  induction html as [|c html IH]; [done|].
  cbn [match_knowledgeBaseReg].
  destruct (startsWith knowledgeBaseReg_open (c :: html)) eqn:Hopen.
  - destruct (greedy_group (drop (length knowledgeBaseReg_open) (c :: html)))
      as [g0|] eqn:Hg.
    + intros [= <-]. exists 0. cbn [drop].
      apply startsWith_true in Hopen as [rest Hrest].
      rewrite Hrest, drop_app_length in Hg.
      split; [|split; [lia|]].
      * destruct (greedy_group_sound _ _ Hg) as (Hne & Hlt & post & Hpost).
        split; [done|]. split; [done|]. exists post. by rewrite Hrest, Hpost.
      * intros g' (Hne & Hlt & post & Hpost). rewrite Hrest in Hpost.
        apply app_inv_head in Hpost. by eapply greedy_group_longest.
    + intros Hm. destruct (IH Hm) as (n & Hb & Hleft & Hlong).
      exists (S n). cbn [drop]. split; [done|]. split; [|done].
      intros [|i] g' Hi; cbn [drop].
      * intros (Hne & Hlt & post & Hpost). rewrite Hpost, drop_app_length in Hg.
        destruct (greedy_group_complete g' post Hne Hlt) as [? ?]. congruence.
      * apply Hleft. lia.
  - intros Hm. destruct (IH Hm) as (n & Hb & Hleft & Hlong).
    exists (S n). cbn [drop]. split; [done|]. split; [|done].
    intros [|i] g' Hi; cbn [drop].
    + intros (Hne & Hlt & post & Hpost). rewrite Hpost, startsWith_app in Hopen. done.
    + apply Hleft. lia.
Qed.

(** ** Line breaks *)

Lemma replace_br_skip n s : replace_br n s = replace_br 0 (drop n s).
Proof.
  revert n. induction s as [|c s IH]; intros [|n]; try done.
  cbn [replace_br drop]. apply IH.
Qed.

Lemma br_match_head s n : br_match s = Some n -> exists rest, s = 60%N :: rest.
Proof.
  unfold br_match. destruct s as [|c s]; [done|].
  destruct (startsWith (js "<br/>") (c :: s)) eqn:H1.
  - intros _. apply startsWith_true in H1 as [rest Hrest]. injection Hrest as -> _. by eexists.
  - destruct (startsWith (js "<br") (c :: s)) eqn:H2; [|done].
    intros _. apply startsWith_true in H2 as [rest Hrest]. injection Hrest as -> _. by eexists.
Qed.

(** A code unit of the result that is not a line feed is the head of the
    text, and what follows it is the result for what follows the head. *)
Lemma replace_br_head s c out :
  replace_br 0 s = c :: out -> c <> 10%N ->
  exists rest, s = c :: rest /\ out = replace_br 0 rest /\ br_match s = None.
Proof.
  destruct s as [|d s]; [done|]. cbn [replace_br].
  destruct (br_match (d :: s)) as [n|]; [by intros [= <- _]|].
  intros [= -> <-] _. by exists s.
Qed.

Lemma replace_br_no_break_head s : startsWith (js "<br/>") (replace_br 0 s) = false.
Proof.
  destruct (startsWith (js "<br/>") (replace_br 0 s)) eqn:Hs; [exfalso|done].
  apply startsWith_true in Hs as [rest Hs].
  apply replace_br_head in Hs as (s1 & -> & H1 & Hm); [|done].
  symmetry in H1. apply replace_br_head in H1 as (s2 & -> & H2 & _); [|done].
  symmetry in H2. apply replace_br_head in H2 as (s3 & -> & H3 & _); [|done].
  symmetry in H3. apply replace_br_head in H3 as (s4 & -> & H4 & _); [|done].
  symmetry in H4. apply replace_br_head in H4 as (s5 & -> & H5 & _); [|done].
  assert (br_match (js "<br/>" ++ s5) = Some 5) as Hb
    by (unfold br_match; by rewrite startsWith_app).
  by rewrite (Hb : br_match (_ :: _ :: _ :: _ :: _ :: s5) = Some 5) in Hm.
Qed.

(** X19.  After the replacement of line 101 the text holds no [<br/>].  A
    match of the pattern can still be left, since the replacement is one
    pass and the inserted line feed is white space. *)
Theorem no_break_left :
  (forall mdData, includes (js "<br/>") (replace_br 0 mdData) = false)
  /\ exists mdData, is_Some (br_match (replace_br 0 mdData)).
Proof.
  split.
  - intros mdData. remember (length mdData) as n eqn:Hn.
    assert (length mdData <= n) as Hle by lia. clear Hn. revert mdData Hle.
    induction n as [|n IH]; intros [|c s] Hle; try done; [simpl in Hle; lia|].
    simpl in Hle.
    assert (includes (js "<br/>") (replace_br 0 (c :: s))
            = startsWith (js "<br/>") (replace_br 0 (c :: s))
              || match replace_br 0 (c :: s) with
                 | [] => false
                 | _ :: rest => includes (js "<br/>") rest
                 end) as -> by by destruct (replace_br 0 (c :: s)).
    rewrite replace_br_no_break_head. cbn [orb replace_br].
    destruct (br_match (c :: s)) as [k|].
    + rewrite replace_br_skip. apply IH. rewrite length_drop. lia.
    + apply IH. lia.
  - exists (js "<br<br/>/>"). by eexists.
Qed.

(** X20.  What [getKnowledgeBaseInfo] resolves to is the empty object or
    has a node list, a name and a description: the test [!tocList] of
    line 120 is true for the empty object only, which line 119 has
    refused before. *)
Theorem info_with_book_is_complete h w now url info :
  (getKnowledgeBaseInfo h w now url).2 = Resolved info ->
  info = emptyInfo
  \/ (is_Some (tocList info) /\ is_Some (bookName info) /\ is_Some (bookDesc info)).
Proof.
  unfold getKnowledgeBaseInfo. cbn [snd].
  destruct (get_page w now url) as [status data|message]; cbn [then_]; [|done].
  assert (forall html,
             then_ (Resolved html) (fun html =>
               let data1 := default [] (match_knowledgeBaseReg html) in
               match data1 with
               | [] => Resolved emptyInfo
               | _ :: _ =>
                   then_ (decodeURIComponent h data1) (fun decoded =>
                   then_ (JSON_parse h decoded) (fun jsonData =>
                     match KnowledgeBase.book jsonData with
                     | None => Resolved emptyInfo
                     | Some book =>
                         Resolved
                           {| bookId := KnowledgeBase.id book;
                              bookSlug := KnowledgeBase.slug book;
                              tocList := Some (default [] (KnowledgeBase.toc book));
                              bookName := Some (default [] (KnowledgeBase.name book));
                              bookDesc := Some (default [] (KnowledgeBase.description book)) |}
                     end))
               end) = Resolved info ->
             info = emptyInfo
             \/ (is_Some (tocList info) /\ is_Some (bookName info) /\ is_Some (bookDesc info)))
    as Hhtml.
  { intros html. cbn [then_]. cbv zeta.
    destruct (default [] (match_knowledgeBaseReg html)); [intros [= <-]; by left|].
    destruct (decodeURIComponent h _) as [decoded|]; cbn [then_]; [|done].
    destruct (JSON_parse h decoded) as [jsonData|]; cbn [then_]; [|done].
    destruct (KnowledgeBase.book jsonData) as [book|]; intros [= <-]; [|by left].
    right. cbn. by repeat split. }
  case_decide; apply Hhtml.
Qed.

(** ** Examples

    The scenario of the specification, run through each of the
    properties above that has a premise. *)

(** Two articles named [Hello] under [A] have the same path; so they
    have the same segments. *)
Lemma path_determines_segments_witness :
  exists st' e1 e2,
    loop (demoHost None) specProgressBar (demoWorld [] [] []) 7 (js "out/7") demoUrl
      [nodeA; nodeB; nodeB2] demoStart = Normal st'
    /\ uuidMap st' !! js "B" = Some e1
    /\ uuidMap st' !! js "B2" = Some e2
    /\ pathTitleList e1 = pathTitleList e2.
Proof.
  eexists _, _, _. split; [reflexivity|]. split; [reflexivity|]. split; [reflexivity|].
  eapply (path_determines_segments (demoHost None) specProgressBar (demoWorld [] [] []) 7%Z
            (js "out/7") demoUrl [nodeA; nodeB; nodeB2] demoStart _ (js "B") (js "B2")).
  - intros k e Hk.
    change (uuidMap demoStart) with (∅ : gmap jsstring IProgressItem) in Hk.
    by rewrite lookup_empty in Hk.
  - reflexivity.
  - reflexivity.
  - reflexivity.
  - reflexivity.
Defined.

Lemma entries_keep_shape_witness :
  exists st',
    loop (demoHost None) specProgressBar (demoWorld [] [] []) 7 (js "out/7") demoUrl
      [nodeA; nodeB] demoStart = Normal st'
    /\ forall k e, uuidMap st' !! k = Some e -> shaped e.
Proof.
  eexists. split; [reflexivity|].
  eapply (entries_keep_shape (demoHost None) specProgressBar (demoWorld [] [] []) 7%Z
            (js "out/7") demoUrl [nodeA; nodeB] demoStart).
  - intros k e Hk.
    change (uuidMap demoStart) with (∅ : gmap jsstring IProgressItem) in Hk.
    by rewrite lookup_empty in Hk.
  - reflexivity.
Defined.

Lemma map_grows_by_listed_nodes_witness :
  exists st',
    loop (demoHost None) specProgressBar (demoWorld [] [] []) 7 (js "out/7") demoUrl
      [nodeB] afterA = Normal st'
    /\ uuidMap afterA ⊆ uuidMap st'.
Proof.
  eexists. split; [reflexivity|].
  eapply (map_grows_by_listed_nodes (demoHost None) specProgressBar (demoWorld [] [] []) 7%Z
            (js "out/7") demoUrl [nodeB] afterA).
  reflexivity.
Defined.

(** The scenario in a world where the download of [B] fails, beside the
    one where it succeeds. *)
Lemma map_independent_of_world_witness :
  exists st1' st2',
    loop (demoHost None) specProgressBar (demoWorld [] [] []) 7 (js "out/7") demoUrl
      [nodeA; nodeB] demoStart = Normal st1'
    /\ loop (demoHost None) specProgressBar (demoWorld [apiUrl_of 7 (js "x1")] [] []) 7
         (js "out/7") demoUrl [nodeA; nodeB] demoStart = Normal st2'
    /\ uuidMap st2' = uuidMap st1'.
Proof.
  eexists _, _. split; [reflexivity|]. split; [reflexivity|].
  refine (proj1 (map_independent_of_world (demoHost None) specProgressBar
                   (demoWorld [] [] []) 7%Z (js "out/7") demoUrl
                   specProgressBar (demoWorld [apiUrl_of 7 (js "x1")] [] []) 7%Z
                   (js "out/7") demoUrl [nodeA; nodeB] demoStart _ demoStart _ _) _ _);
    reflexivity.
Defined.

Lemma ordered_pass_ends_witness :
  exists st',
    loop (demoHost None) specProgressBar (demoWorld [] [] []) 7 (js "out/7") demoUrl
      [nodeA; nodeB] demoStart = Normal st'.
Proof.
  apply (ordered_pass_ends (demoHost None) specProgressBar (demoWorld [] [] []) 7%Z
           (js "out/7") demoUrl [nodeA; nodeB] [nodeA; nodeB] demoStart).
  - exact ordered_scenario.
  - intros k e Hk.
    change (uuidMap demoStart) with (∅ : gmap jsstring IProgressItem) in Hk.
    by rewrite lookup_empty in Hk.
  - reflexivity.
  - reflexivity.
Defined.

Lemma present_nodes_no_effect_witness :
  loop (demoHost None) specProgressBar (demoWorld [] [] []) 7 (js "out/7") demoUrl
    [nodeA] afterA = Normal afterA.
Proof.
  apply (present_nodes_no_effect (demoHost None) specProgressBar (demoWorld [] [] []) 7%Z
           (js "out/7") demoUrl [nodeA] afterA).
  intros x Hx%list_elem_of_singleton _. subst x. eexists. reflexivity.
Defined.

(** [L] names itself as its parent; the directory [C] under it is never
    left. *)
Lemma self_parent_hangs_witness :
  exists st1,
    loopBody (demoHost None) specProgressBar (demoWorld [] [] []) 7 (js "out/7") demoUrl
      nodeL demoStart = Normal st1
    /\ loopBody (demoHost None) specProgressBar (demoWorld [] [] []) 7 (js "out/7") demoUrl
         nodeC st1 = Hung (trace st1).
Proof.
  eexists. split; [reflexivity|].
  eapply (self_parent_hangs (demoHost None) specProgressBar (demoWorld [] [] []) 7%Z
            (js "out/7") demoUrl nodeL nodeC (js "TITLE") demoStart).
  - exists (js "TITLE"). split; [reflexivity|]. left. reflexivity.
  - reflexivity.
  - reflexivity.
  - reflexivity.
  - reflexivity.
  - reflexivity.
  - reflexivity.
  - reflexivity.
Defined.

(** The scenario with the download of [B] failed: two requests, one of
    them for an article, which failed. *)
Lemma report_matches_requests_witness :
  exists st,
    main (demoHost (Some (mkBook [nodeA; nodeB]))) specProgressBar
      (demoWorld [apiUrl_of 7 (js "x1")] [] []) demoUrl demoOptions = Normal (Ran st)
    /\ count is_axios_get (trace st) = 2
    /\ count is_failed_line (trace st) = 1.
Proof.
  edestruct (report_matches_requests (demoHost (Some (mkBook [nodeA; nodeB]))) specProgressBar
               (demoWorld [apiUrl_of 7 (js "x1")] [] []) demoUrl demoOptions)
    as (Hget & _ & Hfailed & _).
  - reflexivity.
  - eexists. split; [reflexivity|]. split; [exact Hget|exact Hfailed].
Defined.

Lemma directories_are_made_witness :
  exists st',
    loop (demoHost None) specProgressBar (demoWorld [] [] []) 7 (js "out/7") demoUrl
      [nodeA; nodeB] demoStart = Normal st'
    /\ made (demoHost None) (js "out/7") st'.
Proof.
  eexists. split; [reflexivity|].
  eapply (directories_are_made (demoHost None) specProgressBar (demoWorld [] [] []) 7%Z
            (js "out/7") demoUrl [nodeA; nodeB] demoStart).
  - intros k e type_ Hk.
    change (uuidMap demoStart) with (∅ : gmap jsstring IProgressItem) in Hk.
    by rewrite lookup_empty in Hk.
  - reflexivity.
Defined.

Lemma page_match_leftmost_longest_witness :
  exists g n,
    match_knowledgeBaseReg demoPage = Some g
    /\ block_at (drop n demoPage) g
    /\ (forall i g', i < n -> ~ block_at (drop i demoPage) g')
    /\ (forall g', block_at (drop n demoPage) g' -> length g' <= length g).
Proof.
  edestruct (page_match_leftmost_longest demoPage) as (n & Hn).
  - reflexivity.
  - eexists _, n. split; [reflexivity|exact Hn].
Defined.

Lemma info_with_book_is_complete_witness :
  exists info,
    (getKnowledgeBaseInfo (demoHost (Some (mkBook [nodeA; nodeB]))) (demoWorld [] [] []) 0
       demoUrl).2 = Resolved info
    /\ is_Some (tocList info).
Proof.
  eexists. split; [reflexivity|].
  edestruct (info_with_book_is_complete (demoHost (Some (mkBook [nodeA; nodeB])))
               (demoWorld [] [] []) 0 demoUrl) as [Hempty|(Htoc & _)].
  - reflexivity.
  - discriminate Hempty.
  - exact Htoc.
Defined.
